(** * Cassette loader (C++): a shallow embedding and its verified properties

    The development follows the C++ sources
      - [loaders/cpp/src/cassette_loader.cpp]  (EventTracker, MemoryManager, Cassette)
      - [benchmarks/cpp/benchmark.cpp]         (generate_random_hex, percentile, main)

    Conventions of the embedding.
      - [std::string] is a [string] (a sequence of 8-bit characters).
      - Guest linear memory ([memory.data(store)]) is a [list byte].
      - [int32_t], [int] and [size_t] values are integers of [Z]; every
        conversion between them is written out with its wrap-around.
      - A C++ call either returns, throws, or has no defined behaviour
        (a read outside a buffer, re-locking a [std::mutex] that the calling
        thread already owns): the three cases of [outcome].
      - A call of a guest export yields the vector of its results and the
        store after the call; a trap raised by the engine is not part of
        the model.
      - An exception carries the text of its [what()]; for an exception
        of a library the text stands for its class.
      - The [debug] flag only controls writes to [std::cerr]; the log is not
        part of the model. *)

From Stdlib Require Import ZArith List String Ascii Strings.Byte Bool Lia.
From Stdlib Require Import Floats.SpecFloat.
From stdpp Require Import gmap strings list pretty sorting.

Import ListNotations.
Open Scope Z_scope.

(** ** Results of C++ calls *)

Inductive outcome (A : Type) : Type :=
| Ok (a : A)
| Throw (what : string)
| Undefined.

Arguments Ok {A} a.
Arguments Throw {A} what.
Arguments Undefined {A}.

Definition obind {A B} (x : outcome A) (k : A -> outcome B) : outcome B :=
  match x with
  | Ok a => k a
  | Throw w => Throw w
  | Undefined => Undefined
  end.

Definition returns {A} (x : outcome A) : Prop := exists a, x = Ok a.

(** ** Machine integers *)

Definition two32 : Z := 2 ^ 32.
Definition two64 : Z := 2 ^ 64.

(** [static_cast<int32_t>(x)] / [static_cast<int>(x)] of an integer value. *)
Definition to_int32 (x : Z) : Z := (x + 2 ^ 31) mod two32 - 2 ^ 31.

(** [static_cast<size_t>(x)] on a 64-bit target. *)
Definition to_size_t (x : Z) : Z := x mod two64.

(** [a + b] computed in [size_t]. *)
Definition size_add (a b : Z) : Z := (a + b) mod two64.

#[global] Instance byte_eq_decision : EqDecision byte := Byte.byte_eq_dec.

(** ** Doubles

    A [double] is an IEEE 754 binary64 value, in the representation of the
    standard library's specification of floating-point arithmetic. *)

Module Double.

Definition prec : Z := 53.
Definition emax : Z := 1024.

Definition double : Type := spec_float.

Definition zero : double := S754_zero false.

(** [x * y] in round-to-nearest-even. *)
Definition mul (x y : double) : double := SFmul prec emax x y.

(** [x < y] *)
Definition ltb (x y : double) : bool := SFltb x y.

(** The conversion of a [size_t] value to [double]. *)
Definition of_size (n : Z) : double := binary_normalize prec emax n 0 false.

(** The integer part of a finite value (rounding toward zero). *)
Definition trunc (d : double) : option Z :=
  match d with
  | S754_zero _ => Some 0
  | S754_finite s m e => Some (cond_Zopp s (Z.shiftl (Zpos m) e))
  | _ => None
  end.

(** The largest integer not above a finite value. *)
Definition floor (d : double) : option Z :=
  match d with
  | S754_zero _ => Some 0
  | S754_finite s m e => Some (Z.shiftl (cond_Zopp s (Zpos m)) e)
  | _ => None
  end.

Definition is_nan (d : double) : bool :=
  match d with S754_nan => true | _ => false end.

(** A value below zero: a finite value or an infinity whose sign bit is
    set. *)
Definition negative (d : double) : bool :=
  match d with
  | S754_finite true _ _ | S754_infinity true => true
  | _ => false
  end.

(** [static_cast<int>(d)]: the truncated value when it is representable
    in [int]; the conversion has no defined behaviour otherwise. *)
Definition to_int (d : double) : outcome Z :=
  match trunc d with
  | Some z => if (- 2 ^ 31 <=? z) && (z <? 2 ^ 31) then Ok z else Undefined
  | None => Undefined
  end.

(** [x + y] and [x / y] in round-to-nearest-even. *)
Definition add (x y : double) : double := SFadd prec emax x y.

Definition div (x y : double) : double := SFdiv prec emax x y.

(** The conversion of an [int] value to [double]. *)
Definition of_int (n : Z) : double := binary_normalize prec emax n 0 false.

End Double.

(** ** The guest instance, as the host sees it *)

Module Wasm.

(** [wasmtime::Val]; the loader only asks a value whether it is an
    [i32]. *)
Inductive Val : Type :=
| I32 (n : Z)
| NotI32.

(** [results.empty() || !results[0].i32()] fails exactly when this is
    [Some _], which then holds [*results[0].i32()]. *)
Definition results_i32 (results : list Val) : option Z :=
  match results with
  | I32 n :: _ => Some n
  | _ => None
  end.

Section Store.
(** The state private to the guest (globals, tables, its allocator). *)
Variable G : Type.

(** [wasmtime::Store] with the instance it holds: the exported linear
    memory and the guest's private state. *)
Record Store : Type := { memory : list byte; guest : G }.

(** An exported function: [func.call(store, args)]. *)
Definition Func : Type := list Val -> Store -> list Val * Store.

(** [wasmtime::Extern]: what an instance exports under a name. *)
Inductive Extern : Type :=
| ExternFunc (f : Func)
| ExternGlobal
| ExternMemory
| ExternTable.

(** The exports of an instance: [instance.get(store, name)]. *)
Definition Instance : Type := string -> option Extern.

Definition set_memory (data : list byte) (st : Store) : Store :=
  {| memory := data; guest := guest st |}.
End Store.

Arguments memory {G} _.
Arguments guest {G} _.
Arguments set_memory {G} _ _.
Arguments ExternFunc {G} f.
Arguments ExternGlobal {G}.
Arguments ExternMemory {G}.
Arguments ExternTable {G}.

End Wasm.

Import Wasm.

(** ** MemoryManager *)

Module MemoryManager.

(** [std::get<wasmtime::Memory>(e)] and [std::get<wasmtime::Func>(e)]:
    [std::bad_variant_access] when the export is of another kind. *)
Definition get_memory {G} (e : Extern G) : outcome unit :=
  match e with
  | ExternMemory => Ok tt
  | _ => Throw "bad_variant_access"
  end.

Definition get_func {G} (e : Extern G) : outcome (Func G) :=
  match e with
  | ExternFunc f => Ok f
  | _ => Throw "bad_variant_access"
  end.

(** [MemoryManager::MemoryManager]: the manager keeps the memory of the
    instance, which the store holds, and its [alloc_string] function. *)
Definition new_MemoryManager {G} (instance : Instance G) : outcome (Func G) :=
  match instance "memory" with
  | None => Throw "memory export not found"
  | Some memory_export =>
    obind (get_memory memory_export) (fun _ =>
    match instance "alloc_string" with
    | None => Throw "alloc_string function not found"
    | Some alloc_export => get_func alloc_export
    end)
  end.

(** [std::memcpy(data.data() + off, bs, len)]; [None] when the range is
    not inside the buffer. *)
Definition store_bytes (data : list byte) (off : Z) (bs : list byte)
  : option (list byte) :=
  if (0 <=? off) && (off + Z.of_nat (length bs) <=? Z.of_nat (length data))
  then Some (firstn (Z.to_nat off) data ++ bs
             ++ skipn (Z.to_nat off + length bs) data)
  else None.

(** [MemoryManager::write_string] *)
Definition write_string {G} (alloc_func : Func G) (str : string) (store : Store G)
  : outcome Z * Store G :=
  let '(results, store1) :=
    alloc_func [I32 (to_int32 (Z.of_nat (String.length str)))] store in
  match results_i32 results with
  | None => (Throw "allocation failed", store1)
  | Some ptr =>
    if ptr =? 0 then (Throw "allocation returned null pointer", store1)
    else
      match store_bytes (memory store1) ptr (list_byte_of_string str) with
      | Some data => (Ok ptr, set_memory data store1)
      | None => (Undefined, store1)
      end
  end.

(** [n] bytes of the buffer starting at offset [off]; [None] when the
    range is not inside the buffer (the C++ read is then out of bounds). *)
Definition load (data : list byte) (off n : Z) : option (list byte) :=
  if (0 <=? off) && (0 <=? n) && (off + n <=? Z.of_nat (length data))
  then Some (firstn (Z.to_nat n) (skipn (Z.to_nat off) data))
  else None.

Definition MSGB : list byte := [x4d; x53; x47; x42]%byte.

(** [std::memcpy(&length, p, 4)] into a [uint32_t] on a little-endian host. *)
Definition le_u32 (bs : list byte) : Z :=
  fold_right (fun b acc => Z.of_N (Byte.to_N b) + 256 * acc) 0 bs.

(** The loop [while (end < data.size() && data[end] != 0) end++]: the bytes
    before the first zero byte, or all of them. *)
Fixpoint until_nul (bs : list byte) : list byte :=
  match bs with
  | [] => []
  | b :: bs' => if Byte.eqb b x00 then [] else b :: until_nul bs'
  end.

(** The fall-back read: [end] starts at [ptr_size]; nothing is read when
    [ptr_size] is not below [data.size()]. *)
Definition null_terminated (data : list byte) (ptr_size : Z) : string :=
  if ptr_size <? Z.of_nat (length data)
  then string_of_list_byte (until_nul (skipn (Z.to_nat ptr_size) data))
  else EmptyString.

(** [MemoryManager::read_string] *)
Definition read_string (data : list byte) (ptr : Z) : outcome string :=
  if ptr =? 0 then Throw "null pointer"
  else
    let ptr_size := to_size_t ptr in
    let size := Z.of_nat (length data) in
    if size_add ptr_size 8 <=? size then
      match load data ptr_size 4 with
      | None => Undefined
      | Some signature =>
        if decide (signature = MSGB) then
          match load data (size_add ptr_size 4) 4 with
          | None => Undefined
          | Some lenb =>
            let length := le_u32 lenb in
            if size_add (size_add ptr_size 8) length <=? size then
              match load data (size_add ptr_size 8) length with
              | None => Undefined
              | Some payload => Ok (string_of_list_byte payload)
              end
            else Ok (null_terminated data ptr_size)
          end
        else Ok (null_terminated data ptr_size)
      end
    else Ok (null_terminated data ptr_size).

(** The MSGB frame at [ptr] and its payload: the four bytes at [ptr] are
    the magic, the four bytes after them give a length in little-endian
    order, and the payload of that length ends inside the memory. *)
Definition framed (data : list byte) (ptr : Z) (payload : list byte) : Prop :=
  exists lenb,
    load data ptr 4 = Some MSGB /\
    load data (ptr + 4) 4 = Some lenb /\
    ptr + 8 + le_u32 lenb <= Z.of_nat (length data) /\
    payload = firstn (Z.to_nat (le_u32 lenb)) (skipn (Z.to_nat (ptr + 8)) data).

End MemoryManager.

(** ** EventTracker *)

Module EventTracker.

(** [event_ids.clear()] *)
Definition reset (event_ids : gset string) : gset string := ∅.

(** [event_ids.insert(event_id).second]: whether the id is new, and the
    set after the insertion. *)
Definition add_and_check (event_id : string) (event_ids : gset string)
  : bool * gset string :=
  (bool_decide (event_id ∉ event_ids), {[event_id]} ∪ event_ids).

End EventTracker.

(** ** JSON values ([nlohmann::json]) *)

Module Json.

#[local] Unset Elimination Schemes.
Inductive json : Type :=
| JNull
| JBool (b : bool)
| JInt (n : Z)
| JFloat (f : spec_float)
| JString (s : string)
| JArray (elems : list json)
| JObject (members : list (string * json)).
#[local] Set Elimination Schemes.

Definition is_array (j : json) : bool :=
  match j with JArray _ => true | _ => false end.

Definition is_object (j : json) : bool :=
  match j with JObject _ => true | _ => false end.

Definition is_string (j : json) : bool :=
  match j with JString _ => true | _ => false end.

(** [j.size()] *)
Definition size (j : json) : Z :=
  match j with
  | JNull => 0
  | JArray elems => Z.of_nat (length elems)
  | JObject members => Z.of_nat (length members)
  | _ => 1
  end.

(** [j.empty()] *)
Definition empty (j : json) : bool := size j =? 0.

(** [j[i]] on an array.  Every use in the loader is guarded by
    [is_array]; an index past the end of a non-const array yields the
    null value the library fills in. *)
Definition at_index (j : json) (i : nat) : json :=
  match j with
  | JArray elems => nth i elems JNull
  | _ => JNull
  end.

(** [j == "literal"] *)
Definition eq_str (j : json) (s : string) : bool :=
  match j with JString t => String.eqb t s | _ => false end.

(** [j.get<std::string>()]; [None] stands for the [type_error] thrown on
    a value that is not a string. *)
Definition get_string (j : json) : option string :=
  match j with JString t => Some t | _ => None end.

Fixpoint assoc (key : string) (members : list (string * json)) : option json :=
  match members with
  | [] => None
  | (k, v) :: rest => if String.eqb k key then Some v else assoc key rest
  end.

(** [j.contains(key)] *)
Definition contains (j : json) (key : string) : bool :=
  match j with
  | JObject members => if assoc key members is Some _ then true else false
  | _ => false
  end.

(** [j[key]] on an object; used only under [contains]. *)
Definition at_key (j : json) (key : string) : json :=
  match j with
  | JObject members => default JNull (assoc key members)
  | _ => JNull
  end.

(** *** A reference parser

    [json::parse] belongs to the JSON library, not to the loader: the
    loader is verified for an arbitrary parser (a function from text to
    an optional value, [None] standing for [parse_error]).  The parser
    below is the instance at which concrete replies are evaluated.  It
    reads the JSON grammar without fractional or exponent parts in
    numbers and without unicode escapes. *)

Definition quote : ascii := "034"%char.
Definition backslash : ascii := "092"%char.

Definition is_ws (c : ascii) : bool :=
  match c with
  | " " | "009" | "010" | "013" => true
  | _ => false
  end%char.

Fixpoint skip_ws (s : string) : string :=
  match s with
  | String c r => if is_ws c then skip_ws r else s
  | EmptyString => s
  end.

Definition digit_of (c : ascii) : option Z :=
  let n := Z.of_N (N_of_ascii c) in
  if (48 <=? n) && (n <=? 57) then Some (n - 48) else None.

Fixpoint parse_digits (acc : Z) (s : string) : Z * string :=
  match s with
  | String c r =>
    match digit_of c with
    | Some d => parse_digits (10 * acc + d) r
    | None => (acc, s)
    end
  | EmptyString => (acc, s)
  end.

Definition starts_fraction (s : string) : bool :=
  match s with
  | String c _ => Ascii.eqb c "." || Ascii.eqb c "e" || Ascii.eqb c "E"
  | EmptyString => false
  end.

(** Digits of an integer: a single [0], or a non-zero digit followed by
    digits; a fraction or an exponent is not read. *)
Definition parse_nat (s : string) : option (Z * string) :=
  match s with
  | String c r =>
    match digit_of c with
    | Some 0 =>
      match r with
      | String c' _ =>
        if digit_of c' is Some _ then None
        else if starts_fraction r then None else Some (0, r)
      | EmptyString => Some (0, r)
      end
    | Some d =>
      let '(n, r') := parse_digits d r in
      if starts_fraction r' then None else Some (n, r')
    | None => None
    end
  | EmptyString => None
  end.

Definition unescape (e : ascii) : option ascii :=
  if Ascii.eqb e quote then Some quote
  else if Ascii.eqb e backslash then Some backslash
  else match e with
       | "/" => Some "/"
       | "b" => Some "008"
       | "f" => Some "012"
       | "n" => Some "010"
       | "r" => Some "013"
       | "t" => Some "009"
       | _ => None
       end%char.

(** The characters of a string literal after its opening quote. *)
Fixpoint parse_chars (fuel : nat) (s : string) : option (string * string) :=
  match fuel, s with
  | O, _ => None
  | _, EmptyString => None
  | S fuel', String c r =>
    if Ascii.eqb c quote then Some (EmptyString, r)
    else if Ascii.eqb c backslash then
      match r with
      | String e r' =>
        match unescape e, parse_chars fuel' r' with
        | Some u, Some (t, rest) => Some (String u t, rest)
        | _, _ => None
        end
      | EmptyString => None
      end
    else if (N_of_ascii c <? 32)%N then None
    else
      match parse_chars fuel' r with
      | Some (t, rest) => Some (String c t, rest)
      | None => None
      end
  end.

Definition parse_string_literal (s : string) : option (string * string) :=
  parse_chars (S (String.length s)) s.

Definition expect (lit : string) (v : json) (s : string) : option (json * string) :=
  if String.prefix lit s
  then Some (v, String.substring (String.length lit) (String.length s - String.length lit) s)
  else None.

Fixpoint parse_value (fuel : nat) (s : string) {struct fuel} : option (json * string) :=
  match fuel with
  | O => None
  | S fuel' =>
    match skip_ws s with
    | EmptyString => None
    | String c r as t =>
      if Ascii.eqb c quote then
        match parse_string_literal r with
        | Some (str, rest) => Some (JString str, rest)
        | None => None
        end
      else match c with
      | "n" => expect "null" JNull t
      | "t" => expect "true" (JBool true) t
      | "f" => expect "false" (JBool false) t
      | "-" =>
        match parse_nat r with
        | Some (n, rest) => Some (JInt (- n), rest)
        | None => None
        end
      | "[" =>
        match skip_ws r with
        | String "]" rest => Some (JArray [], rest)
        | _ => parse_elements fuel' r []
        end
      | "{" =>
        match skip_ws r with
        | String "}" rest => Some (JObject [], rest)
        | _ => parse_members fuel' r []
        end
      | _ =>
        match parse_nat t with
        | Some (n, rest) => Some (JInt n, rest)
        | None => None
        end
      end%char
    end
  end
with parse_elements (fuel : nat) (s : string) (acc : list json) {struct fuel}
  : option (json * string) :=
  match fuel with
  | O => None
  | S fuel' =>
    match parse_value fuel' s with
    | Some (v, rest) =>
      match skip_ws rest with
      | String "," rest' => parse_elements fuel' rest' (acc ++ [v])
      | String "]" rest' => Some (JArray (acc ++ [v]), rest')
      | _ => None
      end
    | None => None
    end
  end
with parse_members (fuel : nat) (s : string) (acc : list (string * json)) {struct fuel}
  : option (json * string) :=
  match fuel with
  | O => None
  | S fuel' =>
    match skip_ws s with
    | String c r =>
      if Ascii.eqb c quote then
        match parse_string_literal r with
        | Some (key, rest) =>
          match skip_ws rest with
          | String ":" rest' =>
            match parse_value fuel' rest' with
            | Some (v, rest'') =>
              (* a repeated key keeps its last value, as in the library *)
              let acc' :=
                List.filter (fun kv => negb (String.eqb (fst kv) key)) acc ++ [(key, v)] in
              match skip_ws rest'' with
              | String "," rest3 => parse_members fuel' rest3 acc'
              | String "}" rest3 => Some (JObject acc', rest3)
              | _ => None
              end
            | None => None
            end
          | _ => None
          end
        | None => None
        end
      else None
    | EmptyString => None
    end
  end.

Definition parse (s : string) : option json :=
  match parse_value (S (String.length s)) s with
  | Some (v, rest) =>
    match skip_ws rest with
    | EmptyString => Some v
    | _ => None
    end
  | None => None
  end.

(** Text with apostrophes standing for quotation marks, so that JSON
    literals stay readable: [qq "['EOSE','x']"] is the text
    of a two-element JSON array of strings. *)
Fixpoint qq (s : string) : string :=
  match s with
  | EmptyString => EmptyString
  | String c r => String (if Ascii.eqb c "'" then quote else c) (qq r)
  end.

End Json.

Import Json.

(** ** Cassette *)

Module Cassette.

Import EventTracker MemoryManager.

Definition newline : ascii := "010"%char.

(** [result.find('\n') != std::string::npos] *)
Fixpoint contains_newline (s : string) : bool :=
  match s with
  | EmptyString => false
  | String c r => Ascii.eqb c newline || contains_newline r
  end.

(** The characters up to the next newline, and the text after that
    newline. *)
Fixpoint extract_line (s : string) : string * string :=
  match s with
  | EmptyString => (EmptyString, EmptyString)
  | String c r =>
    if Ascii.eqb c newline then (EmptyString, r)
    else let '(l, rest) := extract_line r in (String c l, rest)
  end.

(** One call [std::getline(stream, message)] on the text that is left to
    read: it fails at the end of the text, and otherwise extracts a line
    and consumes the newline that ends it. *)
Definition getline (s : string) : option (string * string) :=
  match s with
  | EmptyString => None
  | _ => Some (extract_line s)
  end.

(** The successive values of [message] in
    [while (std::getline(stream, message))]: the pieces of the text that
    the newlines end, then the characters after the last newline when
    there are any. *)
Fixpoint getlines (s : string) : list string :=
  match s with
  | EmptyString => []
  | String c r =>
    if Ascii.eqb c newline then EmptyString :: getlines r
    else
      match getlines r with
      | [] => [String c EmptyString]
      | l :: ls => String c l :: ls
      end
  end.

Definition is_empty (s : string) : bool :=
  match s with EmptyString => true | _ => false end.

Definition nonempty (s : string) : bool := negb (is_empty s).

(** The loop at the end of [send]: the messages separated by newlines. *)
Fixpoint join_newline (filtered : list string) : string :=
  match filtered with
  | [] => EmptyString
  | [m] => m
  | m :: rest => m +:+ String newline (join_newline rest)
  end.

Definition NOTICE_send_failed : string := qq "['NOTICE', 'send() failed']".
Definition NOTICE_null_pointer : string :=
  qq "['NOTICE', 'send() returned null pointer']".
Definition INFO_stub : string := qq "{'supported_nips': []}".

Section Loader.

(** [json::parse]; [None] stands for the [parse_error] it throws. *)
Variable json_parse : string -> option json.

(** The guest's private state. *)
Variable G : Type.

(** The export table resolved by the constructor.  [memory] is the
    [memory] component of the store; [alloc_string] is held by the
    memory manager. *)
Record Exports : Type := {
  alloc_func : Func G;
  send_func : Func G;
  describe_func : option (Func G);
  info_func : option (Func G);
  dealloc_func : option (Func G);
  get_size_func : option (Func G)
}.

Variable X : Exports.

(** The mutable part of a [Cassette] object. *)
Record Cassette : Type := {
  store : Store G;
  event_tracker : gset string;
  mutex_locked : bool
}.

Definition set_store (st : Store G) (c : Cassette) : Cassette :=
  {| store := st; event_tracker := event_tracker c; mutex_locked := mutex_locked c |}.

Definition set_tracker (ids : gset string) (c : Cassette) : Cassette :=
  {| store := store c; event_tracker := ids; mutex_locked := mutex_locked c |}.

Definition set_locked (b : bool) (c : Cassette) : Cassette :=
  {| store := store c; event_tracker := event_tracker c; mutex_locked := b |}.

(** [std::lock_guard<std::mutex> lock(mutex);] around a member
    function's body.  [std::mutex] is not recursive: locking it in the
    thread that owns it has no defined behaviour. *)
Definition lock_guard {A} (body : Cassette -> outcome A * Cassette) (c : Cassette)
  : outcome A * Cassette :=
  if mutex_locked c then (Undefined, c)
  else let '(r, c') := body (set_locked true c) in (r, set_locked false c').

(** [if (dealloc_func) dealloc_func->call(store, args);] *)
Definition try_dealloc (args : list Val) (st : Store G) : Store G :=
  match dealloc_func X with
  | Some dealloc => snd (dealloc args st)
  | None => st
  end.

(** [Cassette::is_duplicate_event].  The function takes a constant
    reference and starts with [parsed[0]], which is defined on a
    non-empty array only; both callers pass an array of three or more
    elements, and what the definition gives on any other value stands
    for nothing in the source. *)
Definition is_duplicate_event (parsed : json) (ids : gset string)
  : bool * gset string :=
  if eq_str (at_index parsed 0) "EVENT" && (3 <=? size parsed)
     && is_object (at_index parsed 2)
  then
    let event := at_index parsed 2 in
    if contains event "id" && is_string (at_key event "id") then
      match get_string (at_key event "id") with
      | Some event_id =>
        let '(fresh, ids') := add_and_check event_id ids in
        (negb fresh, ids')
      | None => (false, ids)
      end
    else (false, ids)
  else (false, ids).

Definition known_type (msg_type : string) : bool :=
  String.eqb msg_type "NOTICE" || String.eqb msg_type "EVENT"
  || String.eqb msg_type "EOSE".

(** One turn of the second [while] loop of [process_messages] on a
    non-empty [message]; both [continue] and the [catch] leave the
    list as it is. *)
Definition process_line (acc : list string * gset string) (message : string)
  : list string * gset string :=
  let '(filtered_messages, ids) := acc in
  match json_parse message with
  | None => acc
  | Some parsed =>
    if negb (is_array parsed) || (size parsed <? 2) then acc
    else
      match get_string (at_index parsed 0) with
      | None => acc
      | Some msg_type =>
        if negb (known_type msg_type) then acc
        else if String.eqb msg_type "EVENT" && (3 <=? size parsed) then
          let '(dup, ids') := is_duplicate_event parsed ids in
          if dup then (filtered_messages, ids')
          else (filtered_messages ++ [message], ids')
        else (filtered_messages ++ [message], ids)
      end
  end.

(** The second [while] loop of [process_messages] over the lines that
    [std::getline] yields. *)
Definition process_lines (lines : list string) (acc : list string * gset string)
  : list string * gset string :=
  fold_left
    (fun acc message => if is_empty message then acc else process_line acc message)
    lines acc.

(** [Cassette::process_messages].  The first [while] loop only counts
    the lines for the debug log. *)
Definition process_messages (result : string) (ids : gset string)
  : list string * gset string :=
  if contains_newline result then process_lines (getlines result) ([], ids)
  else
    match json_parse result with
    | Some parsed =>
      if is_array parsed && eq_str (at_index parsed 0) "EVENT" && (3 <=? size parsed)
      then
        let '(dup, ids') := is_duplicate_event parsed ids in
        if dup then ([], ids') else ([result], ids')
      else ([result], ids)
    | None => ([result], ids)
    end.

(** The [try] block at the head of [send]: the tracker after it. *)
Definition track_request (message : string) (ids : gset string) : gset string :=
  match json_parse message with
  | Some msg_data =>
    if is_array msg_data && (2 <=? size msg_data) then
      match get_string (at_index msg_data 0) with
      | Some msg_type => if String.eqb msg_type "REQ" then reset ids else ids
      | None => ids
      end
    else ids
  | None => ids
  end.

(** The [size] that [send] passes when it frees the result. *)
Definition result_size (result_ptr : Z) (result_str : string) (st : Store G)
  : Z * Store G :=
  let size := to_int32 (Z.of_nat (String.length result_str)) in
  match get_size_func X with
  | Some get_size =>
    let '(size_results, st') := get_size [I32 result_ptr] st in
    match results_i32 size_results with
    | Some n => (n, st')
    | None => (size, st')
    end
  | None => (size, st)
  end.

(** What [send] returns from the filtered list. *)
Definition render (filtered : list string) : string :=
  match filtered with
  | [] => EmptyString
  | [m] => m
  | _ => join_newline filtered
  end.

(** [Cassette::send] *)
Definition send (message : string) : Cassette -> outcome string * Cassette :=
  lock_guard (fun c =>
    let c := set_tracker (track_request message (event_tracker c)) c in
    match write_string (alloc_func X) message (store c) with
    | (Ok msg_ptr, st1) =>
      let args := [I32 msg_ptr; I32 (to_int32 (Z.of_nat (String.length message)))] in
      let '(results, st2) := send_func X args st1 in
      let st3 := try_dealloc args st2 in
      match results_i32 results with
      | None => (Ok NOTICE_send_failed, set_store st3 c)
      | Some result_ptr =>
        if result_ptr =? 0 then (Ok NOTICE_null_pointer, set_store st3 c)
        else
          match read_string (memory st3) result_ptr with
          | Ok result_str =>
            let st4 :=
              match dealloc_func X with
              | Some dealloc =>
                let '(size, st') := result_size result_ptr result_str st3 in
                snd (dealloc [I32 result_ptr; I32 size] st')
              | None => st3
              end in
            let '(filtered, ids) := process_messages result_str (event_tracker c) in
            (Ok (render filtered), set_tracker ids (set_store st4 c))
          | Throw w => (Throw w, set_store st3 c)
          | Undefined => (Undefined, set_store st3 c)
          end
      end
    | (Throw w, st1) => (Throw w, set_store st1 c)
    | (Undefined, st1) => (Undefined, set_store st1 c)
    end).

(** [Cassette::info] *)
Definition info : Cassette -> outcome string * Cassette :=
  lock_guard (fun c =>
    match info_func X with
    | None => (Ok INFO_stub, c)
    | Some f =>
      let '(results, st1) := f [] (store c) in
      match results_i32 results with
      | None => (Ok INFO_stub, set_store st1 c)
      | Some ptr =>
        if ptr =? 0 then (Ok INFO_stub, set_store st1 c)
        else
          match read_string (memory st1) ptr with
          | Ok info_str =>
            let st2 :=
              try_dealloc [I32 ptr; I32 (to_int32 (Z.of_nat (String.length info_str)))] st1 in
            (Ok info_str, set_store st2 c)
          | Throw w => (Throw w, set_store st1 c)
          | Undefined => (Undefined, set_store st1 c)
          end
      end
    end).

(** [j.get<int>()]: numbers and booleans convert, any other value
    throws [type_error]. *)
Definition get_int (j : json) : outcome Z :=
  match j with
  | JInt n => Ok (to_int32 n)
  | JFloat f => Double.to_int f
  | JBool b => Ok (if b then 1 else 0)
  | _ => Throw "type must be number"
  end.

(** The text that the [for] loop of [describe] appends for the
    elements from index [i] on. *)
Fixpoint nips_text (first : bool) (nips : list json) : outcome string :=
  match nips with
  | [] => Ok EmptyString
  | n :: rest =>
    obind (get_int n) (fun v =>
    obind (nips_text false rest) (fun text =>
    Ok ((if first then EmptyString else ", ") +:+ pretty v +:+ text)))
  end.

(** The [try] block of [describe] on the text that [info()] returned;
    [catch (...)] turns every exception into the stub. *)
Definition synthesize (info_str : string) : outcome string :=
  match json_parse info_str with
  | None => Ok "Cassette module"
  | Some info_json =>
    let description :=
      if contains info_json "name" && is_string (at_key info_json "name")
      then default EmptyString (get_string (at_key info_json "name"))
      else "Cassette" in
    if contains info_json "supported_nips"
       && is_array (at_key info_json "supported_nips")
    then
      let nips := at_key info_json "supported_nips" in
      if negb (empty nips) then
        match nips with
        | JArray elems =>
          match nips_text true elems with
          | Ok text => Ok (description +:+ " (supports NIPs: " +:+ text +:+ ")")
          | Throw _ => Ok "Cassette module"
          | Undefined => Undefined
          end
        | _ => Ok description
        end
      else Ok description
    else Ok description
  end.

(** [Cassette::describe] *)
Definition describe : Cassette -> outcome string * Cassette :=
  lock_guard (fun c =>
    match describe_func X with
    | Some f =>
      let '(results, st1) := f [] (store c) in
      match results_i32 results with
      | None => (Throw "describe function failed", set_store st1 c)
      | Some ptr =>
        match read_string (memory st1) ptr with
        | Ok desc =>
          let st2 :=
            try_dealloc [I32 ptr; I32 (to_int32 (Z.of_nat (String.length desc)))] st1 in
          (Ok desc, set_store st2 c)
        | Throw w => (Throw w, set_store st1 c)
        | Undefined => (Undefined, set_store st1 c)
        end
      end
    | None =>
      (* [info()] is called with the mutex of this object held *)
      match info c with
      | (Ok info_str, c1) => (synthesize info_str, c1)
      | (Throw w, c1) => (Throw w, c1)
      | (Undefined, c1) => (Undefined, c1)
      end
    end).

(** *** Notions used to state the properties of the loader *)

(** The text parses as a JSON array of at least two elements whose
    first element is the string [REQ]. *)
Definition is_req (message : string) : bool :=
  match json_parse message with
  | Some (JArray (JString t :: _ :: _)) => String.eqb t "REQ"
  | _ => false
  end.

(** The dedup key of a parsed message: the string [id] of the object
    in third position of an [EVENT] array. *)
Definition event_key (parsed : json) : option string :=
  match parsed with
  | JArray (JString t :: _ :: JObject members :: _) =>
    if String.eqb t "EVENT" then
      match assoc "id" members with
      | Some (JString i) => Some i
      | _ => None
      end
    else None
  | _ => None
  end.

Definition event_id (message : string) : option string :=
  match json_parse message with
  | Some parsed => event_key parsed
  | None => None
  end.

(** A message with a tag that message processing recognises. *)
Definition accepted (m : string) : Prop :=
  exists t e rest,
    json_parse m = Some (JArray (JString t :: e :: rest)) /\ known_type t = true.

(** The tracker invariant of message processing: the events kept so
    far carry distinct ids, all of them new with respect to the
    tracker [ids0] at the start and recorded in the current one. *)
Definition fresh (ids0 : gset string) (st : list string * gset string) : Prop :=
  NoDup (omap event_id (fst st))
  /\ (forall i, i ∈ omap event_id (fst st) -> i ∈ snd st /\ i ∉ ids0)
  /\ ids0 ⊆ snd st.

(** The candidate messages of a raw reply. *)
Definition candidates (result : string) : list string :=
  if contains_newline result
  then List.filter nonempty (getlines result)
  else [result].

(** Why message processing drops a line of a multi-line reply. *)
Inductive dropped (ids : gset string) (line : string) : Prop :=
| dropped_parse_failure :
    json_parse line = None -> dropped ids line
| dropped_not_a_message parsed :
    json_parse line = Some parsed ->
    is_array parsed && (2 <=? size parsed) && is_string (at_index parsed 0) = false ->
    dropped ids line
| dropped_unknown_tag t e rest :
    json_parse line = Some (JArray (JString t :: e :: rest)) ->
    known_type t = false -> dropped ids line
| dropped_duplicate i :
    event_id line = Some i -> i ∈ ids -> dropped ids line.

(** Every candidate of the reply is dropped: each line of a multi-line
    reply for one of the reasons above, a single-line reply because it
    is a duplicate event. *)
Definition all_dropped (ids : gset string) (result : string) : Prop :=
  if contains_newline result
  then Forall (dropped ids) (candidates result)
  else exists i, event_id result = Some i /\ i ∈ ids.

(** The text that [send] reads back from the guest, when the call gets
    that far: the message was written, the [send] export returned a
    non-zero [i32], and the read at that pointer succeeded. *)
Definition guest_reply (message : string) (c : Cassette) : option string :=
  match write_string (alloc_func X) message (store c) with
  | (Ok msg_ptr, st1) =>
    let args := [I32 msg_ptr; I32 (to_int32 (Z.of_nat (String.length message)))] in
    let '(results, st2) := send_func X args st1 in
    match results_i32 results with
    | Some result_ptr =>
      if result_ptr =? 0 then None
      else
        match read_string (memory (try_dealloc args st2)) result_ptr with
        | Ok result_str => Some result_str
        | _ => None
        end
    | None => None
    end
  | _ => None
  end.

(** The messages that a caller reads in a returned text. *)
Definition messages_of (r : outcome string) : list string :=
  match r with
  | Ok text => List.filter nonempty (getlines text)
  | _ => []
  end.

(** Successive calls of [send] on one cassette. *)
Fixpoint send_all (messages : list string) (c : Cassette)
  : list (outcome string) * Cassette :=
  match messages with
  | [] => ([], c)
  | message :: rest =>
    let '(r, c1) := send message c in
    let '(rs, c2) := send_all rest c1 in
    (r :: rs, c2)
  end.

(** The event ids that the caller has received in a run of calls. *)
Definition received_ids (rs : list (outcome string)) : list string :=
  omap event_id (concat (map messages_of rs)).

(** A line that passes the tag test of the second loop of
    [process_messages]: an array of two or more elements whose first
    element is one of the three known tags. *)
Definition tagged (m : string) : bool :=
  match json_parse m with
  | Some (JArray (JString t :: _ :: _)) => known_type t
  | _ => false
  end.

(** The messages that a reply puts before the duplicate check: the
    non-empty lines of a multi-line reply that pass the tag test, a
    reply of one line as it is. *)
Definition admitted (result : string) : list string :=
  if contains_newline result then List.filter tagged (candidates result)
  else [result].

(** The ids of the events of a list of messages. *)
Definition ids_of (ms : list string) : gset string :=
  list_to_set (omap event_id ms).

(** The messages of [ms] without the events whose id is in [seen] or is
    the id of an event before them in [ms]: of the events that share an
    id, the first one stays and the later ones go. *)
Fixpoint first_occurrences (seen : gset string) (ms : list string) : list string :=
  match ms with
  | [] => []
  | m :: rest =>
    match event_id m with
    | Some i =>
      if bool_decide (i ∈ seen) then first_occurrences seen rest
      else m :: first_occurrences ({[i]} ∪ seen) rest
    | None => m :: first_occurrences seen rest
    end
  end.

(** The messages that one call of [send] has before the duplicate
    check: the admitted messages of the guest's reply, the notice that
    [send] makes up when the export yields no pointer, nothing when the
    call raises. *)
Definition offered (message : string) (c : Cassette) : list string :=
  match write_string (alloc_func X) message (store c) with
  | (Ok msg_ptr, st1) =>
    let args := [I32 msg_ptr; I32 (to_int32 (Z.of_nat (String.length message)))] in
    let '(results, st2) := send_func X args st1 in
    match results_i32 results with
    | Some result_ptr =>
      if result_ptr =? 0 then [NOTICE_null_pointer]
      else
        match read_string (memory (try_dealloc args st2)) result_ptr with
        | Ok result_str => admitted result_str
        | _ => []
        end
    | None => [NOTICE_send_failed]
    end
  | _ => []
  end.

(** The same for successive calls, in the order of the calls. *)
Fixpoint offered_all (messages : list string) (c : Cassette) : list string :=
  match messages with
  | [] => []
  | message :: rest => offered message c ++ offered_all rest (snd (send message c))
  end.

End Loader.

Arguments Build_Exports {G} _ _ _ _ _ _.
Arguments Build_Cassette {G} _ _ _.
Arguments alloc_func {G} _.
Arguments send_func {G} _.
Arguments describe_func {G} _.
Arguments info_func {G} _.
Arguments dealloc_func {G} _.
Arguments get_size_func {G} _.
Arguments store {G} _.
Arguments event_tracker {G} _.
Arguments mutex_locked {G} _.

Section Construction.

Variable G : Type.

(** [wasmtime::Module::from_file(engine, path)] followed by
    [wasmtime::Instance(store, module, {})]: the instance and the store
    that holds it, or the exception of the engine. *)
Variable instantiate : string -> outcome (Instance G * Store G).

(** An optional export: kept when it is there and is a function. *)
Definition optional_func (instance : Instance G) (name : string) : option (Func G) :=
  match instance name with
  | Some (ExternFunc f) => Some f
  | _ => None
  end.

(** [Cassette::Cassette]: the export table and the object's first
    state. *)
Definition new_Cassette (path : string) : outcome (Exports G * Cassette G) :=
  obind (instantiate path) (fun '(instance, store) =>
  obind (new_MemoryManager instance) (fun alloc =>
  match instance "send" with
  | Some (ExternFunc send) =>
    Ok ({| alloc_func := alloc;
           send_func := send;
           describe_func := optional_func instance "describe";
           info_func := optional_func instance "info";
           dealloc_func := optional_func instance "dealloc_string";
           get_size_func := optional_func instance "get_allocation_size" |},
        {| store := store; event_tracker := ∅; mutex_locked := false |})
  | _ => Throw "send function not found"
  end)).

End Construction.

Arguments optional_func {G} _ _.

End Cassette.

(** ** The benchmark harness *)

Module Benchmark.

Import Double.

Section Random.

(** The state of the C library's generator, and one call of [rand()]. *)
Variable R : Type.
Variable rand : R -> Z * R.

Definition hex_chars : string := "0123456789abcdef".

(** The [for] loop of [generate_random_hex] with [count] turns to go;
    a turn appends [hex_chars[rand() % 16]]. *)
Fixpoint hex_loop (count : nat) (result : string) (seed : R) : outcome (string * R) :=
  match count with
  | O => Ok (result, seed)
  | S count' =>
    let '(x, seed') := rand seed in
    let i := Z.rem x 16 in
    match (if 0 <=? i then String.get (Z.to_nat i) hex_chars else None) with
    | Some c => hex_loop count' (result +:+ String c EmptyString) seed'
    | None => Undefined
    end
  end.

(** [generate_random_hex].  [result.reserve(length)] takes a negative
    [length] for a size above [max_size()] and throws
    [std::length_error]. *)
Definition generate_random_hex (length : Z) (seed : R) : outcome (string * R) :=
  if length <? 0 then Throw "length_error"
  else hex_loop (Z.to_nat length) EmptyString seed.

End Random.

(** [a <= b] in the sense of [std::sort]: [b < a] does not hold. *)
Definition ascending (a b : double) : Prop := ltb b a = false.

#[global] Instance ascending_dec a b : Decision (ascending a b).
Proof. unfold ascending. apply _. Defined.

(** The values in ascending order.  [std::sort] leaves the order of
    values that compare equal (the two zeros) open, and the merge sort
    here is one of the arrangements it may produce; what is proved of
    the value at an index is proved of every ascending arrangement of
    the sample. *)
Definition sorted (values : list double) : list double :=
  merge_sort ascending values.

(** The place of a value in the order of the doubles: its class (negative
    infinity, negative, zero, positive, positive infinity), then exponent
    and mantissa. *)
Definition rank (d : double) : Z * Z * Z :=
  match d with
  | S754_infinity true => (-2, 0, 0)
  | S754_finite true m e => (-1, - e, - Zpos m)
  | S754_zero _ => (0, 0, 0)
  | S754_finite false m e => (1, e, Zpos m)
  | S754_infinity false => (2, 0, 0)
  | S754_nan => (3, 0, 0)
  end.

Definition rank_le (a b : Z * Z * Z) : Prop :=
  let '(a1, a2, a3) := a in
  let '(b1, b2, b3) := b in
  a1 < b1 \/ (a1 = b1 /\ (a2 < b2 \/ (a2 = b2 /\ a3 <= b3))).

(** [std::sort(values.begin(), values.end())].  The algorithm requires
    [<] to be a strict weak ordering of the values, which it is not when
    one of them is a NaN. *)
Definition sort (values : list double) : outcome (list double) :=
  if existsb is_nan values then Undefined else Ok (sorted values).

(** [percentile] *)
Definition percentile (values : list double) (p : double) : outcome double :=
  match values with
  | [] => Ok zero
  | _ =>
    obind (sort values) (fun values =>
    let size := Z.of_nat (length values) in
    obind (to_int (mul (of_size size) p)) (fun index =>
    let i := to_size_t (Z.min index (to_int32 (size - 1))) in
    if i <? size then
      match nth_error values (Z.to_nat i) with
      | Some v => Ok v
      | None => Undefined
      end
    else Undefined))
  end.

(** [*std::min_element(first, last)]: the first of the smallest values;
    the range must not be empty. *)
Definition min_element (values : list double) : outcome double :=
  match values with
  | [] => Undefined
  | v :: rest =>
    Ok (fold_left (fun smallest x => if ltb x smallest then x else smallest) rest v)
  end.

(** [*std::max_element(first, last)]: the first of the largest values. *)
Definition max_element (values : list double) : outcome double :=
  match values with
  | [] => Undefined
  | v :: rest =>
    Ok (fold_left (fun largest x => if ltb largest x then x else largest) rest v)
  end.

(** [*std::max_element(first, last)] on a vector of [int]. *)
Definition max_element_int (values : list Z) : outcome Z :=
  match values with
  | [] => Undefined
  | v :: rest => Ok (fold_left (fun largest x => if largest <? x then x else largest) rest v)
  end.

(** [std::accumulate(first, last, 0.0) / values.size()] *)
Definition average (values : list double) : double :=
  div (fold_left add values zero) (of_size (Z.of_nat (length values))).

Definition average_int (values : list Z) : double :=
  div (fold_left (fun sum n => add sum (of_int n)) values zero)
      (of_size (Z.of_nat (length values))).

(** The literals [0.5], [0.95] and [0.99]. *)
Definition P50 : double := S754_finite false 4503599627370496 (-53).
Definition P95 : double := S754_finite false 8556839292003942 (-53).
Definition P99 : double := S754_finite false 8917127262193582 (-53).

(** The entry that [main] writes for one filter in the JSON report,
    from the timings of the filter and its event counts when it has
    any; no entry for a filter without timings.  (An object of the
    library keeps its keys sorted; the order of the members is not part
    of the model.) *)
Definition filter_summary (times : list double) (event_counts : option (list Z))
  : outcome (option json) :=
  match times with
  | [] => Ok None
  | _ =>
    obind (min_element times) (fun min_ms =>
    obind (max_element times) (fun max_ms =>
    obind (percentile times P50) (fun p50_ms =>
    obind (percentile times P95) (fun p95_ms =>
    obind (percentile times P99) (fun p99_ms =>
    let entry :=
      [("count", JInt (Z.of_nat (length times)));
       ("avg_ms", JFloat (average times));
       ("min_ms", JFloat min_ms);
       ("max_ms", JFloat max_ms);
       ("p50_ms", JFloat p50_ms);
       ("p95_ms", JFloat p95_ms);
       ("p99_ms", JFloat p99_ms)]%string in
    match event_counts with
    | Some ((_ :: _) as counts) =>
      obind (max_element_int counts) (fun max_events =>
      Ok (Some (JObject (entry ++ [("avg_events", JFloat (average_int counts));
                                   ("max_events", JInt max_events)]%string))))
    | _ => Ok (Some (JObject entry))
    end)))))
  end.

Definition isspace (c : ascii) : bool :=
  match c with
  | " " | "009" | "010" | "011" | "012" | "013" => true
  | _ => false
  end%char.

Fixpoint skip_spaces (s : string) : string :=
  match s with
  | String c r => if isspace c then skip_spaces r else s
  | EmptyString => s
  end.

(** The decimal digits at the head of a text: how many there are and
    their value. *)
Fixpoint digits (s : string) (count : nat) (acc : Z) : nat * Z :=
  match s with
  | String c r =>
    match Json.digit_of c with
    | Some d => digits r (S count) (10 * acc + d)
    | None => (count, acc)
    end
  | EmptyString => (count, acc)
  end.

(** [std::stoi(s)]: [invalid_argument] when no digits follow the
    optional spaces and sign, [out_of_range] when the value is not an
    [int]. *)
Definition stoi (s : string) : outcome Z :=
  let t := skip_spaces s in
  let '(negative, t) :=
    match t with
    | String "-" r => (true, r)
    | String "+" r => (false, r)
    | _ => (false, t)
    end%char in
  let '(count, n) := digits t O 0 in
  if Nat.eqb count 0 then Throw "stoi"
  else
    let v := if negative then - n else n in
    if (- 2 ^ 31 <=? v) && (v <? 2 ^ 31) then Ok v else Throw "stoi".

Definition is_iterations_flag (arg : string) : bool :=
  String.eqb arg "--iterations" || String.eqb arg "-i".

(** The argument loop of [main] from [argv[i]] on. *)
Fixpoint parse_args (args : list string) (iterations : Z) (cassette_paths : list string)
  : outcome (Z * list string) :=
  match args with
  | [] => Ok (iterations, cassette_paths)
  | arg :: rest =>
    if is_iterations_flag arg then
      match rest with
      | value :: rest' =>
        obind (stoi value) (fun n => parse_args rest' n cassette_paths)
      | [] => Ok (iterations, cassette_paths)
      end
    else parse_args rest iterations (cassette_paths ++ [arg])
  end.

Section Main.

(** [BenchmarkResult] *)
Variable Result : Type.

(** [fs::exists(path)], which throws on a file-system error. *)
Variable fs_exists : string -> outcome bool.

(** [benchmark_cassette(path, iterations)] with the cassette found at
    that path. *)
Variable benchmark_cassette : string -> Z -> outcome Result.

(** [print_comparison_table(results)] followed by the writing of the
    JSON file. *)
Variable report : list Result -> outcome unit.

(** The loop over [cassette_paths]: a path that does not exist is
    skipped, an exception of the benchmark is caught and reported. *)
Fixpoint run_all (paths : list string) (iterations : Z) (results : list Result)
  : outcome (list Result) :=
  match paths with
  | [] => Ok results
  | path :: rest =>
    obind (fs_exists path) (fun found =>
    if negb found then run_all rest iterations results
    else
      match benchmark_cassette path iterations with
      | Ok r => run_all rest iterations (results ++ [r])
      | Throw _ => run_all rest iterations results
      | Undefined => Undefined
      end)
  end.

(** The program's environment behaves: the file system answers, no
    benchmark run goes wrong other than by an exception, and the
    report gets written. *)
Definition well_behaved (iterations : Z) : Prop :=
  (forall path, returns (fs_exists path))
  /\ (forall path, benchmark_cassette path iterations <> Undefined)
  /\ (forall results, returns (report results)).

(** What a run of the program leaves behind: its exit status and the
    results it reported. *)
Record Exit : Type := { status : Z; reported : list Result }.

(** [main]; [argv] is the whole argument vector, program name
    included.  An exception that leaves [main] ends the program
    without an exit status of its own. *)
Definition main (argv : list string) : outcome Exit :=
  if Z.of_nat (length argv) <? 2 then Ok {| status := 1; reported := [] |}
  else
    obind (parse_args (tl argv) 100 []) (fun '(iterations, cassette_paths) =>
    match cassette_paths with
    | [] => Ok {| status := 1; reported := [] |}
    | _ =>
      obind (run_all cassette_paths iterations []) (fun results =>
      match results with
      | [] => Ok {| status := 0; reported := [] |}
      | _ => obind (report results) (fun _ => Ok {| status := 0; reported := results |})
      end)
    end).

End Main.

Arguments status {Result} _.
Arguments reported {Result} _.

End Benchmark.

(** ** Concrete guests

    Small guests on which the loader is evaluated: the guest has no state
    of its own, [alloc_string] always answers address 8, and a reply is
    placed at address 64 of the linear memory, followed by a zero byte. *)

Module Guests.

Import Cassette.

Definition blank : list byte := repeat x00 64.

Definition memory_with (text : string) : list byte :=
  blank ++ list_byte_of_string text ++ [x00].

(** An export that returns [results] and leaves the store alone. *)
Definition returning (results : list Val) : Func unit :=
  fun _ st => (results, st).

(** An export that writes [text] at address 64 and returns that address. *)
Definition replying (text : string) : Func unit :=
  fun _ st => ([I32 64], set_memory (memory_with text) st).

Definition exports (send_f : Func unit) (describe_f info_f : option (Func unit))
  : Exports unit :=
  {| alloc_func := returning [I32 8];
     send_func := send_f;
     describe_func := describe_f;
     info_func := info_f;
     dealloc_func := Some (returning []);
     get_size_func := None |}.

(** A guest with only the required exports, whose [send] is [send_f]. *)
Definition sending (send_f : Func unit) : Exports unit :=
  exports send_f None None.

Definition loaded (ids : gset string) : Cassette unit :=
  {| store := {| memory := blank; guest := tt |};
     event_tracker := ids;
     mutex_locked := false |}.

Definition nl : string := String newline EmptyString.

(** The reply of scenario S1: the same event twice, then [EOSE]. *)
Definition reply_S1 : string :=
  qq "['EVENT','s1',{'id':'a'}]" +:+ nl +:+ qq "['EVENT','s1',{'id':'a'}]"
  +:+ nl +:+ qq "['EOSE','s1']".

(** The reply of scenario S3. *)
Definition reply_S3 : string :=
  "FOO" +:+ nl +:+ qq "['NOTICE','ok']" +:+ nl +:+ qq "['BOGUS','x']".

Definition REQ_s1 : string := qq "['REQ','s1',{}]".
Definition CLOSE_s1 : string := qq "['CLOSE','s1']".
Definition EVENT_a : string := qq "['EVENT','s1',{'id':'a'}]".
Definition BOGUS_x : string := qq "['BOGUS','x']".

(** A reply of which nothing is kept: a line that is not JSON, a line
    with an unknown tag, and an event (that the tracker may have). *)
Definition reply_dropped : string :=
  "FOO" +:+ nl +:+ BOGUS_x +:+ nl +:+ EVENT_a.

(** The bytes of scenario S5 at address 1: an MSGB frame around
    [hello]. *)
Definition memory_S5 : list byte :=
  [x00; x4d; x53; x47; x42; x05; x00; x00; x00; x68; x65; x6c; x6c; x6f; x21; x00]%byte.

(** The doubles 1.0, 2.0, 3.0, 0.5 and 0.95. *)
Definition one : Double.double := S754_finite false 4503599627370496 (-52).
Definition two : Double.double := S754_finite false 4503599627370496 (-51).
Definition three : Double.double := S754_finite false 6755399441055744 (-51).
Definition half : Double.double := S754_finite false 4503599627370496 (-53).
Definition p95 : Double.double := S754_finite false 8556839292003942 (-53).

(** A file system without files and a benchmark that cannot load. *)
Definition no_file : string -> outcome bool := fun _ => Ok false.
Definition not_loadable : string -> Z -> outcome unit := fun _ _ => Throw "not loadable".
Definition no_report : list unit -> outcome unit := fun _ => Ok tt.

(** The frame of scenario S5 cut short: the header announces 255 bytes
    and two follow. *)
Definition memory_cut : list byte :=
  [x00; x4d; x53; x47; x42; xff; x00; x00; x00; x68; x69; x00]%byte.

(** A clean reply: an event, then the end of the stored events. *)
Definition reply_clean : string := EVENT_a +:+ nl +:+ qq "['EOSE','s1']".

(** Two events that share the id [a] and differ in their content. *)
Definition first_a : string := qq "['EVENT','s1',{'id':'a','content':'first'}]".
Definition second_a : string := qq "['EVENT','s1',{'id':'a','content':'second'}]".
Definition EOSE_s1 : string := qq "['EOSE','s1']".

(** A reply that holds both, and the end of the stored events. *)
Definition reply_twice : string :=
  first_a +:+ nl +:+ second_a +:+ nl +:+ EOSE_s1.

(** A guest whose allocator yields no value. *)
Definition out_of_memory : Exports unit :=
  {| alloc_func := returning [];
     send_func := replying EVENT_a;
     describe_func := None;
     info_func := None;
     dealloc_func := None;
     get_size_func := None |}.

(** An instance with the required exports and an [info] function. *)
Definition instance_full : Instance unit :=
  fun name =>
    if String.eqb name "memory" then Some ExternMemory
    else if String.eqb name "alloc_string" then Some (ExternFunc (returning [I32 8]))
    else if String.eqb name "send" then Some (ExternFunc (replying EVENT_a))
    else if String.eqb name "info" then Some (ExternFunc (replying INFO_stub))
    else None.

Definition instantiate_full : string -> outcome (Instance unit * Store unit) :=
  fun _ => Ok (instance_full, {| memory := blank; guest := tt |}).

(** The double -1.0. *)
Definition minus_one : Double.double := S754_finite true 4503599627370496 (-52).

(** The sample generator of the C standard. *)
Definition lcg (next : Z) : Z * Z :=
  let next := (next * 1103515245 + 12345) mod 2 ^ 32 in
  ((next / 65536) mod 32768, next).

(** A file system with every file but [missing.wasm], and a benchmark
    that fails on [broken.wasm] and otherwise returns the path. *)
Definition all_but_missing : string -> outcome bool :=
  fun path => Ok (negb (String.eqb path "missing.wasm")).

Definition all_but_broken : string -> Z -> outcome string :=
  fun path _ => if String.eqb path "broken.wasm" then Throw "broken" else Ok path.

Definition report_written : list string -> outcome unit := fun _ => Ok tt.

(** The report entry of the timings 3.0, 1.0 and 2.0. *)
Definition summary_123 : json :=
  JObject [("count", JInt 3); ("avg_ms", JFloat two); ("min_ms", JFloat one);
           ("max_ms", JFloat three); ("p50_ms", JFloat two); ("p95_ms", JFloat three);
           ("p99_ms", JFloat three)]%string.

End Guests.

(** * Properties

    ** MemoryManager *)

Module MemoryManagerFacts.
Import MemoryManager.

Lemma to_size_t_small x : 0 <= x < two64 -> to_size_t x = x.
Proof. intros H. unfold to_size_t. apply Z.mod_small. exact H. Qed.

Lemma size_add_small a b : 0 <= a + b < two64 -> size_add a b = a + b.
Proof. intros H. unfold size_add. apply Z.mod_small. exact H. Qed.

Lemma load_length data off n bs : load data off n = Some bs -> Z.of_nat (length bs) = n.
Proof.
  unfold load. intros H.
  destruct ((0 <=? off) && (0 <=? n) && (off + n <=? Z.of_nat (length data))) eqn:E;
    [|discriminate].
  apply andb_prop in E as [E E3]. apply andb_prop in E as [E1 E2].
  injection H as <-. rewrite length_take, length_drop. lia.
Qed.

Lemma byte_to_N_bound b : (Byte.to_N b < 256)%N.
Proof. pose proof (Byte.to_N_bounded b). lia. Qed.

Lemma le_u32_bound bs : 0 <= le_u32 bs < 256 ^ Z.of_nat (length bs).
Proof.
  induction bs as [|b bs IH]; simpl.
  - unfold le_u32. simpl. lia.
  - unfold le_u32 in *. simpl fold_right.
    pose proof (byte_to_N_bound b) as Hb.
    replace (Z.of_nat (S (length bs))) with (Z.succ (Z.of_nat (length bs))) by lia.
    rewrite Z.pow_succ_r by lia. lia.
Qed.

Lemma le_u32_4 data off lenb : load data off 4 = Some lenb -> 0 <= le_u32 lenb < two32.
Proof.
  intros H. apply load_length in H.
  pose proof (le_u32_bound lenb) as Hb. rewrite H in Hb. exact Hb.
Qed.

Lemma load_in_bounds data off n :
  0 <= off -> 0 <= n -> off + n <= Z.of_nat (length data) ->
  load data off n = Some (firstn (Z.to_nat n) (skipn (Z.to_nat off) data)).
Proof.
  intros H1 H2 H3. unfold load.
  rewrite (proj2 (Z.leb_le _ _) H1), (proj2 (Z.leb_le _ _) H2), (proj2 (Z.leb_le _ _) H3).
  reflexivity.
Qed.

Lemma load_out_of_bounds data off n :
  Z.of_nat (length data) < off + n -> load data off n = None.
Proof.
  intros H. unfold load.
  rewrite (proj2 (Z.leb_gt _ _) H), andb_false_r. reflexivity.
Qed.

Lemma read_string_null data : read_string data 0 = Throw "null pointer".
Proof. reflexivity. Qed.

Lemma read_string_framed data ptr payload :
  0 < ptr < 2 ^ 31 -> framed data ptr payload ->
  read_string data ptr = Ok (string_of_list_byte payload).
Proof.
  intros Hp (lenb & Hsig & Hlen & Hfit & ->).
  pose proof (le_u32_4 _ _ _ Hlen) as Hb. unfold two32 in Hb.
  unfold read_string.
  destruct (Z.eqb_spec ptr 0) as [->|_]; [lia|].
  rewrite to_size_t_small by (unfold two64; lia).
  rewrite !size_add_small by (unfold two64; lia).
  rewrite (proj2 (Z.leb_le _ _)) by lia.
  rewrite Hsig. rewrite decide_True by reflexivity.
  rewrite Hlen. cbv zeta.
  rewrite size_add_small by (unfold two64; lia).
  rewrite (proj2 (Z.leb_le _ _)) by lia.
  rewrite load_in_bounds by lia. reflexivity.
Qed.

Lemma read_string_unframed data ptr :
  0 < ptr < 2 ^ 31 -> (forall payload, ~ framed data ptr payload) ->
  read_string data ptr = Ok (null_terminated data ptr).
Proof.
  intros Hp Hno. unfold read_string.
  destruct (Z.eqb_spec ptr 0) as [->|_]; [lia|].
  rewrite to_size_t_small by (unfold two64; lia).
  rewrite !size_add_small by (unfold two64; lia).
  destruct (Z.leb_spec (ptr + 8) (Z.of_nat (length data))) as [H8|H8]; [|reflexivity].
  rewrite load_in_bounds by lia.
  destruct (decide _) as [Hsig|Hsig]; [|reflexivity].
  rewrite load_in_bounds by lia.
  set (lenb := firstn (Z.to_nat 4) (skipn (Z.to_nat (ptr + 4)) data)).
  assert (Hl : load data (ptr + 4) 4 = Some lenb) by (apply load_in_bounds; lia).
  pose proof (le_u32_4 _ _ _ Hl) as Hb. unfold two32 in Hb.
  cbv zeta. rewrite size_add_small by (unfold two64; lia).
  destruct (Z.leb_spec (ptr + 8 + le_u32 lenb) (Z.of_nat (length data))) as [Hfit|Hfit];
    [|reflexivity].
  exfalso. eapply Hno. exists lenb. split; [|split; [exact Hl|split; [exact Hfit|reflexivity]]].
  rewrite load_in_bounds by lia. f_equal. exact Hsig.
Qed.

(** C7.  The specification of [read_string] covers every non-zero
    pointer: a frame that fits is decoded, anything else is read up to
    the first zero byte or the end of the memory.  At a pointer from -8
    to -1 the bounds test [ptr_size + 8 <= data.size()] wraps around to
    [ptr + 8 <= data.size()] and passes, and the four signature bytes are
    then read from outside the memory: the read has no defined
    behaviour, where the specification has it return the empty string.
    At the positive pointers the function does what is specified
    ([read_string_framed], [read_string_unframed], [read_string_at_end]). *)
Theorem read_string_wrapping_pointer data ptr :
  - 8 <= ptr <= - 1 ->
  ptr + 8 <= Z.of_nat (length data) <= 2 ^ 32 ->
  read_string data ptr = Undefined.
Proof.
  intros Hp [Hlo Hhi]. unfold read_string.
  destruct (Z.eqb_spec ptr 0) as [->|_]; [lia|].
  assert (Hs : to_size_t ptr = two64 + ptr).
  { unfold to_size_t, two64. symmetry. apply (Z.mod_unique _ _ (-1)); lia. }
  rewrite Hs.
  assert (Ha : size_add (two64 + ptr) 8 = ptr + 8).
  { unfold size_add, two64. symmetry. apply (Z.mod_unique _ _ 1); lia. }
  rewrite Ha. rewrite (proj2 (Z.leb_le _ _) Hlo).
  rewrite load_out_of_bounds; [reflexivity|]. unfold two64. lia.
Qed.


(** A pointer at the very end of the memory reads the empty string. *)
Lemma read_string_at_end data :
  0 < Z.of_nat (length data) < 2 ^ 31 ->
  read_string data (Z.of_nat (length data)) = Ok EmptyString.
Proof.
  intros H. rewrite read_string_unframed; [| exact H |].
  - unfold null_terminated. rewrite Z.ltb_irrefl. reflexivity.
  - intros payload (lenb & Hsig & _).
    rewrite load_out_of_bounds in Hsig by lia. discriminate.
Qed.

(** *** Writing a message *)

Lemma length_list_byte_of_string s :
  length (list_byte_of_string s) = String.length s.
Proof.
  unfold list_byte_of_string. rewrite length_map.
  induction s as [|c r IH]; simpl; [reflexivity|]. rewrite IH. reflexivity.
Qed.

Lemma store_bytes_Some data off bs data' :
  store_bytes data off bs = Some data' ->
  0 <= off /\ off + Z.of_nat (length bs) <= Z.of_nat (length data)
  /\ data' = firstn (Z.to_nat off) data ++ bs ++ skipn (Z.to_nat off + length bs) data.
Proof.
  unfold store_bytes. intros H.
  destruct (Z.leb_spec 0 off) as [H0|H0]; [|discriminate].
  destruct (Z.leb_spec (off + Z.of_nat (length bs)) (Z.of_nat (length data))) as [H1|H1];
    [|discriminate].
  simpl in H. injection H as <-. auto.
Qed.

Lemma write_string_Ok {G} (alloc_func : Func G) str st ptr st' :
  write_string alloc_func str st = (Ok ptr, st') ->
  exists results st1 data,
    alloc_func [I32 (to_int32 (Z.of_nat (String.length str)))] st = (results, st1)
    /\ results_i32 results = Some ptr /\ ptr <> 0
    /\ store_bytes (memory st1) ptr (list_byte_of_string str) = Some data
    /\ st' = set_memory data st1.
Proof.
  unfold write_string. intros H.
  destruct (alloc_func _ st) as [results st1].
  destruct (results_i32 results) as [p|] eqn:Hr; [|discriminate].
  destruct (p =? 0) eqn:Hp; [discriminate|]. apply Z.eqb_neq in Hp.
  destruct (store_bytes _ _ _) as [data|] eqn:Hs; [|discriminate].
  injection H as <- <-. exists results, st1, data. repeat split; auto.
Qed.

Lemma write_string_throws {G} (alloc_func : Func G) str st w st1 :
  write_string alloc_func str st = (Throw w, st1) ->
  (w = "allocation failed" \/ w = "allocation returned null pointer")%string.
Proof.
  unfold write_string. destruct (alloc_func _ st) as [results st'].
  destruct (results_i32 results) as [ptr|]; [|intros H; injection H as <- _; auto].
  destruct (ptr =? 0); [intros H; injection H as <- _; auto|].
  destruct (store_bytes _ _ _); discriminate.
Qed.

(** X1.  When [write_string] returns a pointer, the pointer is positive
    and the message fits in the memory at that address; the memory that
    the allocator left keeps its size, holds the bytes of the message
    from the pointer on, and is unchanged everywhere else; the guest's
    own state is as the allocator left it. *)
Theorem write_string_stores_message {G} (alloc_func : Func G) (str : string)
    (st st' : Store G) (ptr : Z) :
  write_string alloc_func str st = (Ok ptr, st') ->
  let st1 := snd (alloc_func [I32 (to_int32 (Z.of_nat (String.length str)))] st) in
  let len := String.length str in
  0 < ptr
  /\ ptr + Z.of_nat len <= Z.of_nat (length (memory st1))
  /\ length (memory st') = length (memory st1)
  /\ guest st' = guest st1
  /\ load (memory st') ptr (Z.of_nat len) = Some (list_byte_of_string str)
  /\ (forall i : nat, (i < Z.to_nat ptr \/ Z.to_nat ptr + len <= i)%nat ->
        nth_error (memory st') i = nth_error (memory st1) i).
Proof.
  intros H. apply write_string_Ok in H as (results & st1 & data & Ha & Hr & Hp & Hs & ->).
  rewrite Ha. cbn [snd].
  apply store_bytes_Some in Hs as (H0 & H1 & ->).
  rewrite length_list_byte_of_string in *.
  set (bs := list_byte_of_string str).
  assert (Hbs : length bs = String.length str) by apply length_list_byte_of_string.
  cbn [memory set_memory guest].
  split; [lia|]. split; [lia|].
  split; [rewrite !length_app, length_take, length_drop; lia|].
  split; [reflexivity|]. split.
  - rewrite load_in_bounds;
      [|lia|lia|rewrite !length_app, length_take, length_drop; lia].
    f_equal. rewrite drop_app_length'; [|rewrite length_take; lia].
    rewrite Nat2Z.id, <- Hbs. apply take_app_length.
  - intros i [Hi|Hi].
    + rewrite nth_error_app1 by (rewrite length_take; lia).
      rewrite nth_error_firstn. rewrite (proj2 (Nat.ltb_lt _ _)) by lia. reflexivity.
    + rewrite nth_error_app2 by (rewrite length_take; lia).
      rewrite nth_error_app2 by (rewrite length_take; lia).
      rewrite nth_error_skipn. f_equal. rewrite length_take. lia.
Qed.

Lemma until_nul_app bs post :
  x00 ∉ bs -> until_nul (bs ++ post) = bs ++ until_nul post.
Proof.
  induction bs as [|b bs IH]; intros H; [reflexivity|].
  simpl. destruct (Byte.eqb b x00) eqn:Hb.
  - exfalso. apply H. apply Byte.byte_dec_bl in Hb. subst.
    apply elem_of_cons; left; reflexivity.
  - f_equal. apply IH. intros Hin. apply H. apply elem_of_cons; right; exact Hin.
Qed.

(** X2.  What [write_string] wrote, [read_string] reads back: a message
    without a zero byte that does not begin with the four bytes [MSGB],
    written at a pointer and followed by a zero byte or by the end of
    the memory, is the string that [read_string] returns at that
    pointer. *)
Theorem write_string_read_string {G} (alloc_func : Func G) (str : string)
    (st st' : Store G) (ptr : Z) :
  write_string alloc_func str st = (Ok ptr, st') ->
  ptr < 2 ^ 31 ->
  x00 ∉ list_byte_of_string str ->
  firstn 4 (list_byte_of_string str) <> MSGB ->
  (nth_error (memory st') (Z.to_nat ptr + String.length str) = Some x00
   \/ ptr + Z.of_nat (String.length str) = Z.of_nat (length (memory st'))) ->
  read_string (memory st') ptr = Ok str.
Proof.
  intros H Hptr Hnul Hsig Hend.
  apply write_string_Ok in H as (results & st1 & data & _ & _ & Hp & Hs & ->).
  apply store_bytes_Some in Hs as (H0 & H1 & ->).
  cbn [memory set_memory] in *.
  assert (Hstr : str = string_of_list_byte (list_byte_of_string str))
    by (symmetry; apply string_of_list_byte_of_string).
  rewrite <- length_list_byte_of_string in *.
  set (bs := list_byte_of_string str) in *. clearbody bs. subst str.
  set (pre := take (Z.to_nat ptr) (memory st1)) in *.
  set (post := drop (Z.to_nat ptr + length bs) (memory st1)) in *.
  assert (Hpre : length pre = Z.to_nat ptr) by (unfold pre; rewrite length_take; lia).
  clearbody pre post.
  assert (Hdrop : drop (Z.to_nat ptr) (pre ++ bs ++ post) = bs ++ post).
  { rewrite <- Hpre. apply drop_app_length. }
  assert (Hpost : post = [] \/ exists post', post = x00 :: post').
  { destruct Hend as [Hend|Hend].
    - right. rewrite nth_error_app2 in Hend by lia.
      rewrite nth_error_app2 in Hend by lia.
      replace (Z.to_nat ptr + length bs - length pre - length bs)%nat with 0%nat
        in Hend by lia.
      destruct post as [|b post']; [discriminate|]. injection Hend as ->. eauto.
    - left. rewrite !length_app in Hend. destruct post; [reflexivity|].
      simpl in Hend. lia. }
  rewrite read_string_unframed; [|lia|].
  - unfold null_terminated. rewrite Hdrop.
    destruct (Z.ltb_spec ptr (Z.of_nat (length (pre ++ bs ++ post)))) as [Hlt|Hge].
    + rewrite until_nul_app by exact Hnul.
      destruct Hpost as [->|[post' ->]]; simpl; rewrite app_nil_r; reflexivity.
    + rewrite !length_app in Hge. destruct bs; [reflexivity|]. simpl in Hge. lia.
  - intros payload (lenb & Hload & _). unfold load in Hload.
    destruct (_ && _); [|discriminate]. injection Hload as Hload.
    rewrite Hdrop in Hload. change (Z.to_nat 4) with 4%nat in Hload.
    destruct Hpost as [->|[post' ->]].
    + rewrite app_nil_r in Hload. exact (Hsig Hload).
    + apply Hsig. rewrite <- Hload.
      destruct bs as [|a [|b [|c [|d bs']]]]; try reflexivity; discriminate Hload.
Qed.

(** *** Reading at a positive pointer *)

Lemma until_nul_spec bs :
  exists rest,
    bs = until_nul bs ++ rest /\ (x00 ∉ until_nul bs)
    /\ (rest = [] \/ exists r, rest = x00 :: r).
Proof.
  induction bs as [|b bs (rest & Heq & Hnot & Hrest)]; simpl.
  - exists []. split; [reflexivity|]. split; [apply not_elem_of_nil|left; reflexivity].
  - destruct (Byte.eqb b x00) eqn:Hb.
    + apply Byte.byte_dec_bl in Hb. subst b. exists (x00 :: bs).
      split; [reflexivity|]. split; [apply not_elem_of_nil|right; eauto].
    + exists rest. split; [simpl; f_equal; exact Heq|]. split; [|exact Hrest].
      intros Hin. apply elem_of_cons in Hin as [<-|Hin]; [|exact (Hnot Hin)].
      discriminate Hb.
Qed.

(** X3.  At a positive pointer inside the memory [read_string] decodes
    what is there.  A complete MSGB frame (the magic, a little-endian
    length, and a payload of that length inside the memory) yields its
    payload, zero bytes included.  Anything else yields the bytes from
    the pointer up to the first zero byte, or up to the end of the
    memory when there is none. *)
Theorem read_string_decodes (data : list byte) (ptr : Z) :
  0 < ptr < 2 ^ 31 ->
  ptr <= Z.of_nat (length data) ->
  (forall payload, framed data ptr payload ->
     read_string data ptr = Ok (string_of_list_byte payload))
  /\ ((forall payload, ~ framed data ptr payload) ->
      exists bytes rest,
        read_string data ptr = Ok (string_of_list_byte bytes)
        /\ skipn (Z.to_nat ptr) data = bytes ++ rest
        /\ (x00 ∉ bytes)
        /\ (rest = [] \/ exists r, rest = x00 :: r)).
Proof.
  intros Hp Hin. split.
  - intros payload Hf. apply read_string_framed; assumption.
  - intros Hno. rewrite read_string_unframed by assumption.
    unfold null_terminated.
    destruct (Z.ltb_spec ptr (Z.of_nat (length data))) as [Hlt|Hge].
    + destruct (until_nul_spec (skipn (Z.to_nat ptr) data)) as (rest & Heq & Hnot & Hrest).
      exists (until_nul (skipn (Z.to_nat ptr) data)), rest. auto.
    + exists [], []. split; [reflexivity|]. split.
      * apply drop_ge. lia.
      * split; [apply not_elem_of_nil|left; reflexivity].
Qed.

(** X4.  A frame that is cut short is not rejected: when the four bytes
    at a positive pointer are the magic [MSGB] but the header or the
    announced payload does not fit in the memory, [read_string] falls
    back to the zero-terminated read and returns a text that begins
    with [MSGB]. *)
Theorem read_string_truncated_frame (data : list byte) (ptr : Z) :
  0 < ptr < 2 ^ 31 ->
  load data ptr 4 = Some MSGB ->
  (Z.of_nat (length data) < ptr + 8
   \/ exists lenb, load data (ptr + 4) 4 = Some lenb
                   /\ Z.of_nat (length data) < ptr + 8 + le_u32 lenb) ->
  exists rest, read_string data ptr = Ok ("MSGB" +:+ rest).
Proof.
  intros Hp Hsig Hcut.
  rewrite read_string_unframed; [|exact Hp|].
  - unfold null_terminated. unfold load in Hsig.
    destruct (Z.leb_spec 0 ptr); [|discriminate].
    destruct (Z.leb_spec (ptr + 4) (Z.of_nat (length data))); [|discriminate].
    simpl in Hsig. injection Hsig as Hsig.
    rewrite (proj2 (Z.ltb_lt _ _)) by lia.
    destruct (skipn (Z.to_nat ptr) data) as [|a [|b [|c [|d tail]]]]; try discriminate.
    injection Hsig as -> -> -> ->. simpl. eauto.
  - intros payload (lenb & _ & Hlen & Hfit & _).
    destruct Hcut as [Hcut|(lenb' & Hlen' & Hcut)].
    + pose proof (le_u32_4 _ _ _ Hlen). lia.
    + rewrite Hlen in Hlen'. injection Hlen' as <-. lia.
Qed.

(** The only exception of [read_string] is the one for pointer 0. *)
Lemma read_string_throws data ptr w : read_string data ptr = Throw w -> ptr = 0.
Proof.
  unfold read_string. destruct (Z.eqb_spec ptr 0) as [->|Hptr]; [reflexivity|].
  intros Hr. exfalso.
  repeat match type of Hr with
  | context [if ?b then _ else _] => destruct b
  | context [match ?x with _ => _ end] => destruct x
  end; discriminate.
Qed.

End MemoryManagerFacts.

(** ** Message processing, the request window, [info] and [describe] *)

Module CassetteFacts.
Import EventTracker MemoryManager MemoryManagerFacts Cassette.

(** Reduce the projections of the cassette state and of pairs, and
    nothing else. *)
Ltac simpl_state :=
  cbn [fst snd event_tracker set_tracker set_store set_locked store mutex_locked].

Tactic Notation "simpl_state" "in" "*" :=
  cbn [fst snd event_tracker set_tracker set_store set_locked store mutex_locked] in *.

(** *** Lines *)

Lemma getlines_newline_free s :
  Forall (fun l => contains_newline l = false) (getlines s).
Proof.
  induction s as [|c r IH]; simpl.
  - constructor.
  - destruct (Ascii.eqb c newline) eqn:Hc.
    + constructor; [reflexivity|exact IH].
    + destruct (getlines r) as [|l ls].
      * constructor; [|constructor]. simpl. rewrite Hc. reflexivity.
      * inversion IH as [|? ? Hl Hls]; subst.
        constructor; [|exact Hls]. simpl. rewrite Hc, Hl. reflexivity.
Qed.

(** [getlines] is the loop [while (std::getline(stream, message))]. *)
Lemma getlines_getline s :
  getlines s
  = match getline s with
    | None => []
    | Some (message, rest) => message :: getlines rest
    end.
Proof.
  induction s as [|c r IH]; [reflexivity|].
  cbn [getline getlines extract_line].
  destruct (Ascii.eqb c newline); [reflexivity|].
  rewrite IH. destruct r as [|c' r']; [reflexivity|].
  cbn [getline]. destruct (extract_line (String c' r')) as [l rest]. reflexivity.
Qed.

Lemma getlines_single s :
  contains_newline s = false ->
  getlines s = if is_empty s then [] else [s].
Proof.
  induction s as [|c r IH]; simpl; [reflexivity|].
  intros H. apply orb_false_iff in H as [Hc Hr]. rewrite Hc.
  rewrite (IH Hr). destruct r; reflexivity.
Qed.

Lemma getlines_line_then l t :
  contains_newline l = false ->
  getlines (l +:+ String newline t) = l :: getlines t.
Proof.
  induction l as [|c r IH]; simpl.
  - intros _. reflexivity.
  - intros H. apply orb_false_iff in H as [Hc Hr]. rewrite Hc.
    rewrite (IH Hr). reflexivity.
Qed.

Lemma getlines_join filtered :
  Forall (fun l => contains_newline l = false) filtered ->
  List.filter nonempty (getlines (join_newline filtered)) = List.filter nonempty filtered.
Proof.
  induction filtered as [|m rest IH]; [reflexivity|].
  intros H. inversion H as [|? ? Hm Hrest]; subst.
  destruct rest as [|m' rest'].
  - simpl join_newline. rewrite getlines_single by exact Hm.
    destruct m; reflexivity.
  - change (join_newline (m :: m' :: rest'))
      with (m +:+ String newline (join_newline (m' :: rest'))).
    rewrite getlines_line_then by exact Hm.
    assert (Hc : forall x l, List.filter nonempty (x :: l)
                 = if nonempty x then x :: List.filter nonempty l
                   else List.filter nonempty l) by reflexivity.
    rewrite (Hc m (getlines _)), (Hc m (m' :: rest')), (IH Hrest). reflexivity.
Qed.

Lemma render_join filtered : render filtered = join_newline filtered.
Proof. destruct filtered as [|a [|b l]]; reflexivity. Qed.

Section Processing.
Variable json_parse : string -> option json.
Variable G : Type.
Variable X : Exports G.

Abbreviation process_line := (process_line json_parse).
Abbreviation process_messages := (process_messages json_parse).
Abbreviation event_id := (event_id json_parse).
Abbreviation process_lines := (process_lines json_parse).
Abbreviation accepted := (accepted json_parse).
Abbreviation fresh := (fresh json_parse).
Abbreviation is_req := (is_req json_parse).
Abbreviation track_request := (track_request json_parse).
Abbreviation info := (info G X).
Abbreviation describe := (describe json_parse G X).
Abbreviation synthesize := (synthesize json_parse).

Lemma is_duplicate_event_eq parsed ids :
  is_duplicate_event parsed ids =
    match event_key parsed with
    | Some i => (bool_decide (i ∈ ids), {[i]} ∪ ids)
    | None => (false, ids)
    end.
Proof.
  unfold is_duplicate_event, event_key.
  destruct parsed as [| | | | |elems|]; try reflexivity.
  destruct elems as [|a [|b [|c rest]]].
  - reflexivity.
  - simpl. rewrite andb_false_r. destruct a; reflexivity.
  - simpl. rewrite andb_false_r. destruct a; reflexivity.
  - assert (Hs : (3 <=? size (JArray (a :: b :: c :: rest))) = true).
    { apply Z.leb_le. simpl. lia. }
    rewrite Hs. cbn [at_index nth]. rewrite andb_true_r.
    destruct a as [| | | |t| |]; try reflexivity.
    cbn [eq_str].
    destruct c as [| | | | | |members];
      try (destruct (String.eqb t "EVENT"); reflexivity).
    destruct (String.eqb t "EVENT"); [|reflexivity].
    cbn [is_object andb contains at_key].
    destruct (assoc "id" members) as [v|]; [|reflexivity].
    cbn [default]. destruct v; try reflexivity.
    cbn [is_string andb get_string]. unfold add_and_check.
    f_equal. destruct (decide (s ∈ ids)) as [Hin|Hin].
    + rewrite (bool_decide_true (s ∈ ids)) by done.
      rewrite bool_decide_false; [done|]. intros Hn. done.
    + rewrite (bool_decide_false (s ∈ ids)) by done.
      rewrite bool_decide_true; done.
Qed.

Lemma event_key_Some parsed i :
  event_key parsed = Some i ->
  exists e members rest,
    parsed = JArray (JString "EVENT" :: e :: JObject members :: rest)
    /\ assoc "id" members = Some (JString i).
Proof.
  unfold event_key. intros H.
  destruct parsed as [| | | | |elems|]; try discriminate.
  destruct elems as [|a elems]; [discriminate|].
  destruct a as [| | | |t| |]; try discriminate.
  destruct elems as [|b [|c rest]]; try discriminate.
  destruct c as [| | | | | |members]; try discriminate.
  destruct (String.eqb_spec t "EVENT") as [->|]; [|discriminate].
  destruct (assoc "id" members) as [v|] eqn:Hv; [|discriminate].
  destruct v; try discriminate. injection H as ->.
  eauto 6.
Qed.

Lemma union_present (i : string) (ids : gset string) : i ∈ ids -> {[i]} ∪ ids = ids.
Proof. intros H. apply subseteq_union_1_L, singleton_subseteq_l, H. Qed.

(** What one turn of the loop does, by the shape of the line. *)
Lemma process_line_eq f ids message :
  process_line (f, ids) message =
    match json_parse message with
    | Some (JArray (JString t :: e :: rest)) =>
      if known_type t then
        match event_key (JArray (JString t :: e :: rest)) with
        | Some i =>
          if bool_decide (i ∈ ids) then (f, ids)
          else (f ++ [message], {[i]} ∪ ids)
        | None => (f ++ [message], ids)
        end
      else (f, ids)
    | _ => (f, ids)
    end.
Proof.
  unfold process_line.
  destruct (json_parse message) as [parsed|]; [|reflexivity].
  destruct parsed as [| | | | |elems|]; try reflexivity.
  destruct elems as [|a elems]; [reflexivity|].
  destruct elems as [|b rest]; [destruct a; reflexivity|].
  assert (Hs : (size (JArray (a :: b :: rest)) <? 2) = false).
  { apply Z.ltb_ge. simpl. lia. }
  rewrite Hs. cbn [is_array negb orb at_index nth].
  destruct a as [| | | |t| |]; try reflexivity.
  cbn [get_string]. destruct (known_type t); [|reflexivity]. cbn [negb].
  destruct (String.eqb t "EVENT" && (3 <=? size (JArray (JString t :: b :: rest)))) eqn:Ht.
  - rewrite is_duplicate_event_eq.
    destruct (event_key _) as [i|]; [|reflexivity].
    destruct (bool_decide (i ∈ ids)) eqn:Hi; [|reflexivity].
    apply bool_decide_eq_true in Hi. rewrite union_present by done. reflexivity.
  - destruct (event_key _) as [i|] eqn:Hk; [|reflexivity].
    exfalso. apply event_key_Some in Hk as (e & members & rest' & Heq & _).
    injection Heq as -> -> ->.
    apply andb_false_iff in Ht as [Ht|Ht]; [discriminate|].
    apply Z.leb_gt in Ht. simpl in Ht. lia.
Qed.

(** What message processing does with a reply that has no newline. *)
Lemma process_single_eq result ids :
  contains_newline result = false ->
  process_messages result ids =
    match event_id result with
    | Some i =>
      if bool_decide (i ∈ ids) then ([], ids) else ([result], {[i]} ∪ ids)
    | None => ([result], ids)
    end.
Proof.
  intros Hnl. unfold process_messages, Cassette.event_id. rewrite Hnl.
  destruct (json_parse result) as [parsed|]; [|reflexivity].
  destruct (is_array parsed && eq_str (at_index parsed 0) "EVENT" && (3 <=? size parsed))
    eqn:Ht.
  - rewrite is_duplicate_event_eq.
    destruct (event_key parsed) as [i|]; [|reflexivity].
    destruct (bool_decide (i ∈ ids)) eqn:Hi; [|reflexivity].
    apply bool_decide_eq_true in Hi. rewrite union_present by done. reflexivity.
  - destruct (event_key parsed) as [i|] eqn:Hk; [|reflexivity].
    exfalso. apply event_key_Some in Hk as (e & members & rest' & -> & _).
    cbn in Ht. apply Z.leb_gt in Ht. lia.
Qed.

Lemma process_multi_eq result ids :
  contains_newline result = true ->
  process_messages result ids = process_lines (getlines result) ([], ids).
Proof. intros Hnl. unfold process_messages. rewrite Hnl. reflexivity. Qed.

Lemma process_line_cases f ids message :
  (process_line (f, ids) message = (f, ids)) \/
  (accepted message /\
   ((event_id message = None /\ process_line (f, ids) message = (f ++ [message], ids)) \/
    (exists i, event_id message = Some i /\ (i ∉ ids) /\
               process_line (f, ids) message = (f ++ [message], {[i]} ∪ ids)))).
Proof.
  rewrite process_line_eq. unfold Cassette.event_id, accepted.
  destruct (json_parse message) as [parsed|]; [|left; reflexivity].
  destruct parsed as [| | | | |elems|]; try (left; reflexivity).
  destruct elems as [|a elems]; [left; reflexivity|].
  destruct a as [| | | |t| |]; try (left; reflexivity).
  destruct elems as [|b rest]; [left; reflexivity|].
  destruct (known_type t) eqn:Hk; [|left; reflexivity].
  destruct (event_key _) as [i|] eqn:He.
  - destruct (bool_decide (i ∈ ids)) eqn:Hi; [left; reflexivity|].
    apply bool_decide_eq_false in Hi.
    right. split; [eauto 6|]. right. exists i. auto.
  - right. split; [eauto 6|]. left. auto.
Qed.

Lemma fresh_start ids0 : fresh ids0 ([], ids0).
Proof.
  split; [constructor|]. split; [|done].
  intros i Hi. simpl in Hi. inversion Hi.
Qed.

Lemma fresh_process_line ids0 f ids message :
  fresh ids0 (f, ids) -> fresh ids0 (process_line (f, ids) message).
Proof.
  intros (Hnd & Hin & Hsub).
  destruct (process_line_cases f ids message)
    as [->|(_ & [[He ->]|(i & He & Hi & ->)])].
  - done.
  - split; [|split; [|done]]; simpl in *; rewrite omap_app; simpl; rewrite He;
      rewrite app_nil_r; done.
  - split; [|split]; simpl in *.
    + rewrite omap_app. simpl. rewrite He. apply NoDup_app.
      split; [done|]. split; [|apply NoDup_singleton].
      intros j Hj Hj'. apply list_elem_of_singleton in Hj' as ->.
      apply Hin in Hj as [Hj _]. done.
    + intros j Hj. rewrite omap_app in Hj. simpl in Hj. rewrite He in Hj.
      apply elem_of_app in Hj as [Hj|Hj].
      * apply Hin in Hj as [Hj Hj0]. split; [|done].
        apply elem_of_union. right. exact Hj.
      * apply list_elem_of_singleton in Hj as ->. split.
        -- apply elem_of_union. left. apply elem_of_singleton. reflexivity.
        -- intros H0. apply Hi, Hsub, H0.
    + etrans; [exact Hsub|apply union_subseteq_r].
Qed.

Lemma process_lines_cons l lines st :
  process_lines (l :: lines) st
  = process_lines lines (if is_empty l then st else process_line st l).
Proof. reflexivity. Qed.

Lemma fresh_process_lines ids0 lines st :
  fresh ids0 st -> fresh ids0 (process_lines lines st).
Proof.
  revert st. induction lines as [|l lines IH]; intros st Hst; [exact Hst|].
  rewrite process_lines_cons. apply IH. destruct (is_empty l); [exact Hst|].
  destruct st as [f ids]. apply fresh_process_line, Hst.
Qed.

Lemma fresh_process_messages result ids :
  fresh ids (process_messages result ids).
Proof.
  destruct (contains_newline result) eqn:Hnl.
  - rewrite process_multi_eq by exact Hnl.
    apply fresh_process_lines, fresh_start.
  - rewrite process_single_eq by exact Hnl.
    destruct (event_id result) as [i|] eqn:He.
    + destruct (bool_decide (i ∈ ids)) eqn:Hi; [apply fresh_start|].
      apply bool_decide_eq_false in Hi.
      split; [|split]; simpl; rewrite ?He.
      * apply NoDup_singleton.
      * intros j Hj. apply list_elem_of_singleton in Hj as ->. split; [set_solver|done].
      * set_solver.
    + split; [|split]; simpl; rewrite ?He; [constructor| |done].
      intros j Hj. inversion Hj.
Qed.

(** The lines kept from a multi-line reply. *)
Lemma process_lines_kept lines f ids m :
  m ∈ fst (process_lines lines (f, ids)) ->
  m ∈ f \/ (m ∈ lines /\ is_empty m = false /\ accepted m).
Proof.
  revert f ids. induction lines as [|l lines IH]; intros f ids Hm; [left; exact Hm|].
  rewrite process_lines_cons in Hm. destruct (is_empty l) eqn:Hl.
  - apply IH in Hm as [Hm|(Hm & He & Ha)]; [left; done|].
    right. split; [|done]. apply elem_of_cons; right; done.
  - destruct (process_line_cases f ids l)
      as [Heq|(Ha & [[_ Heq]|(i & _ & _ & Heq)])];
      rewrite Heq in Hm; apply IH in Hm as [Hm|(Hm & He & Ha')].
    + left; done.
    + right. split; [|done]. apply elem_of_cons; right; done.
    + apply elem_of_app in Hm as [Hm|Hm]; [left; done|].
      apply list_elem_of_singleton in Hm as ->. right. split; [|done]. apply elem_of_cons; left; done.
    + right. split; [|done]. apply elem_of_cons; right; done.
    + apply elem_of_app in Hm as [Hm|Hm]; [left; done|].
      apply list_elem_of_singleton in Hm as ->. right. split; [|done]. apply elem_of_cons; left; done.
    + right. split; [|done]. apply elem_of_cons; right; done.
Qed.

Lemma process_messages_newline_free result ids :
  Forall (fun l => contains_newline l = false) (fst (process_messages result ids)).
Proof.
  destruct (contains_newline result) eqn:Hnl.
  - rewrite process_multi_eq by exact Hnl. apply Forall_forall. intros m Hm.
    apply process_lines_kept in Hm as [Hm|(Hm & _)]; [inversion Hm|].
    pose proof (getlines_newline_free result) as Hf.
    rewrite Forall_forall in Hf. apply Hf, Hm.
  - rewrite process_single_eq by exact Hnl.
    destruct (event_id result) as [i|]; [destruct (bool_decide _)|]; simpl;
      repeat constructor; exact Hnl.
Qed.

(** *** The request window *)

Lemma track_request_eq message ids :
  track_request message ids
  = if is_req message then ∅ else ids.
Proof.
  unfold track_request, is_req.
  destruct (json_parse message) as [parsed|]; [|reflexivity].
  destruct parsed as [| | | | |elems|]; try reflexivity.
  destruct elems as [|a elems]; [reflexivity|].
  destruct elems as [|b rest]; [destruct a; reflexivity|].
  assert (Hs : (2 <=? size (JArray (a :: b :: rest))) = true).
  { apply Z.leb_le. simpl. lia. }
  rewrite Hs. cbn [is_array andb at_index nth].
  destruct a; try reflexivity.
Qed.

Lemma fresh_filter ids0 f ids :
  fresh ids0 (f, ids) -> fresh ids0 (List.filter nonempty f, ids).
Proof.
  intros (Hnd & Hin & Hsub). simpl in *.
  assert (Hsl : omap event_id (List.filter nonempty f) `sublist_of` omap event_id f).
  { clear. induction f as [|m f IH]; simpl; [constructor|].
    destruct (nonempty m); simpl.
    - destruct (event_id m); [by apply sublist_skip|exact IH].
    - destruct (event_id m); [by apply sublist_cons|exact IH]. }
  split; [|split; [|exact Hsub]]; simpl.
  - eapply sublist_NoDup; eassumption.
  - intros i Hi. apply Hin. eapply elem_of_sublist; eassumption.
Qed.

Lemma fresh_weaken ids0 ids : ids0 ⊆ ids -> fresh ids0 ([], ids).
Proof.
  intros H. split; [constructor|]. split; [|exact H].
  intros i Hi. inversion Hi.
Qed.

Lemma fresh_app ids0 l1 ids1 l2 ids2 :
  fresh ids0 (l1, ids1) -> fresh ids1 (l2, ids2) -> fresh ids0 (l1 ++ l2, ids2).
Proof.
  intros (Hnd1 & Hin1 & Hsub1) (Hnd2 & Hin2 & Hsub2). simpl in *.
  split; [|split]; simpl; rewrite ?omap_app.
  - apply NoDup_app. split; [exact Hnd1|]. split; [|exact Hnd2].
    intros i Hi1 Hi2. apply Hin1 in Hi1 as [Hi1 _]. apply Hin2 in Hi2 as [_ Hi2].
    exact (Hi2 Hi1).
  - intros i Hi. apply elem_of_app in Hi as [Hi|Hi].
    + apply Hin1 in Hi as [Hi Hi0]. split; [|exact Hi0]. apply Hsub2, Hi.
    + apply Hin2 in Hi as [Hi Hi1]. split; [exact Hi|].
      intros H0. apply Hi1, Hsub1, H0.
  - etrans; eassumption.
Qed.

Abbreviation send := (send json_parse G X).
Abbreviation send_all := (send_all json_parse G X).

Section Notices.

(** The parser reads the two notices that [send] makes up as what they
    are: not events. *)
Hypothesis notice_failed : event_id NOTICE_send_failed = None.
Hypothesis notice_null : event_id NOTICE_null_pointer = None.

Lemma messages_of_render filtered :
  Forall (fun l => contains_newline l = false) filtered ->
  messages_of (Ok (render filtered)) = List.filter nonempty filtered.
Proof. intros H. unfold messages_of. rewrite render_join. apply getlines_join, H. Qed.

(** One call of [send]: the events it returns are new with respect to
    the tracker as the head of [send] leaves it. *)
Lemma send_fresh message c :
  fresh (track_request message (event_tracker c))
        (messages_of (fst (send message c)), event_tracker (snd (send message c))).
Proof.
  set (T0 := track_request message (event_tracker c)).
  assert (Hstay : T0 ⊆ event_tracker c).
  { unfold T0. rewrite track_request_eq.
    destruct (is_req message); [apply empty_subseteq|reflexivity]. }
  assert (Hnotice : forall n, event_id n = None -> contains_newline n = false ->
            is_empty n = false -> fresh T0 (messages_of (Ok n), T0)).
  { intros n Hn Hnl He. unfold messages_of. rewrite getlines_single by exact Hnl.
    rewrite He. simpl. unfold nonempty. rewrite He. simpl.
    split; [|split; [|done]]; simpl; rewrite Hn; [constructor|].
    intros i Hi. inversion Hi. }
  unfold Cassette.send, lock_guard.
  destruct (mutex_locked c) eqn:Hlock; [apply fresh_weaken, Hstay|].
  cbn [event_tracker set_tracker set_locked store].
  fold T0.
  destruct (write_string _ _ _) as [[msg_ptr|w|] st1]; simpl_state;
    try apply fresh_start.
  destruct (send_func X _ st1) as [results st2].
  destruct (results_i32 results) as [result_ptr|];
    [|simpl_state; apply Hnotice; [exact notice_failed|reflexivity..]].
  destruct (result_ptr =? 0);
    [simpl_state; apply Hnotice; [exact notice_null|reflexivity..]|].
  destruct (read_string _ _) as [result_str|w|]; simpl_state; try apply fresh_start.
  pose proof (fresh_process_messages result_str T0) as Hf.
  pose proof (process_messages_newline_free result_str T0) as Hn.
  destruct (process_messages result_str T0) as [filtered ids]. simpl_state in *.
  rewrite messages_of_render by exact Hn.
  apply fresh_filter, Hf.
Qed.

Lemma send_all_cons message rest c :
  send_all (message :: rest) c
  = (fst (send message c) :: fst (send_all rest (snd (send message c))),
     snd (send_all rest (snd (send message c)))).
Proof.
  cbn [Cassette.send_all]. destruct (send message c) as [r c1].
  cbn [fst snd]. destruct (send_all rest c1) as [rs c2]. reflexivity.
Qed.

(** A run of calls none of which is a request: the events returned in
    the whole run are new with respect to the tracker at its start. *)
Lemma send_all_fresh messages c :
  Forall (fun m => is_req m = false) messages ->
  fresh (event_tracker c)
        (concat (map messages_of (fst (send_all messages c))),
         event_tracker (snd (send_all messages c))).
Proof.
  revert c. induction messages as [|m rest IH]; intros c Hall.
  - apply fresh_start.
  - inversion Hall as [|? ? Hm Hrest]; subst.
    rewrite send_all_cons. cbn [fst snd map concat].
    eapply fresh_app; [|apply IH, Hrest].
    pose proof (send_fresh m c) as Hs.
    rewrite track_request_eq, Hm in Hs. exact Hs.
Qed.

End Notices.

(** C1 (as amended).  In a reply that contains a newline, every
    returned message is one of its non-empty lines and parses as a JSON
    array of two or more elements whose first element is [EVENT],
    [NOTICE] or [EOSE]: a line with any other tag is absent.  A reply
    without a newline is returned as it is, whatever it holds, unless
    it is an event whose id the tracker already has; in that case
    nothing is returned. *)
Theorem process_messages_tag_filter (result : string) (ids : gset string) :
  (contains_newline result = true ->
   forall m, m ∈ fst (process_messages result ids) ->
     m ∈ getlines result /\ is_empty m = false /\
     exists t e rest,
       json_parse m = Some (JArray (JString t :: e :: rest))
       /\ (t = "NOTICE" \/ t = "EVENT" \/ t = "EOSE")%string)
  /\ (contains_newline result = false ->
      fst (process_messages result ids)
      = match event_id result with
        | Some i => if bool_decide (i ∈ ids) then [] else [result]
        | None => [result]
        end).
Proof.
  split; intros Hnl.
  - intros m Hm. rewrite process_multi_eq in Hm by exact Hnl.
    apply process_lines_kept in Hm as [Hm|(Hm & He & (t & e & rest & Hp & Hk))];
      [inversion Hm|].
    split; [exact Hm|]. split; [exact He|].
    exists t, e, rest. split; [exact Hp|].
    unfold known_type in Hk.
    apply orb_true_iff in Hk as [Hk|Hk]; [apply orb_true_iff in Hk as [Hk|Hk]|];
      apply String.eqb_eq in Hk; auto.
  - rewrite process_single_eq by exact Hnl.
    destruct (event_id result) as [i|]; [destruct (bool_decide _)|]; reflexivity.
Qed.


Lemma send_reply message c result_str :
  mutex_locked c = false ->
  guest_reply G X message c = Some result_str ->
  fst (send message c)
  = Ok (render (fst (process_messages result_str
                       (track_request message (event_tracker c))))).
Proof.
  intros Hlock Hreply. unfold guest_reply in Hreply.
  unfold Cassette.send, lock_guard. rewrite Hlock.
  cbn [event_tracker set_tracker set_locked store].
  destruct (write_string _ _ _) as [[msg_ptr|w|] st1]; try discriminate.
  destruct (send_func X _ st1) as [results st2].
  destruct (results_i32 results) as [result_ptr|]; [|discriminate].
  destruct (result_ptr =? 0); [discriminate|].
  destruct (read_string _ _) as [s|w|]; try discriminate.
  injection Hreply as ->.
  destruct (Cassette.process_messages _ _ _) as [filtered ids]. reflexivity.
Qed.

Lemma process_line_dropped f ids line :
  dropped json_parse ids line -> process_line (f, ids) line = (f, ids).
Proof.
  intros Hd. rewrite process_line_eq.
  destruct Hd as [Hp|parsed Hp Hs|t e rest Hp Hk|i He Hi].
  - rewrite Hp. reflexivity.
  - rewrite Hp. destruct parsed as [| | | | |elems|]; try reflexivity.
    destruct elems as [|a elems]; [reflexivity|].
    destruct a as [| | | |t| |]; try reflexivity.
    destruct elems as [|b rest]; [reflexivity|].
    exfalso. cbn [is_array is_string at_index nth andb] in Hs.
    rewrite andb_true_r in Hs. apply Z.leb_gt in Hs. simpl in Hs. lia.
  - rewrite Hp, Hk. reflexivity.
  - unfold Cassette.event_id in He.
    destruct (json_parse line) as [parsed|]; [|discriminate].
    pose proof He as He'.
    apply event_key_Some in He' as (e & members & rest & -> & _).
    rewrite He. cbn [known_type String.eqb Ascii.eqb Bool.eqb orb].
    rewrite bool_decide_true by exact Hi. reflexivity.
Qed.

Lemma process_lines_dropped lines f ids :
  Forall (dropped json_parse ids) (List.filter nonempty lines) ->
  process_lines lines (f, ids) = (f, ids).
Proof.
  induction lines as [|l lines IH]; intros H; [reflexivity|].
  rewrite process_lines_cons. unfold nonempty in H. simpl in H.
  destruct (is_empty l); simpl in H; [apply IH, H|].
  inversion H as [|? ? Hl Hrest]; subst.
  rewrite process_line_dropped by exact Hl. apply IH, Hrest.
Qed.

Lemma process_messages_all_dropped result ids :
  all_dropped json_parse ids result -> process_messages result ids = ([], ids).
Proof.
  unfold all_dropped, candidates. intros H.
  destruct (contains_newline result) eqn:Hnl.
  - rewrite process_multi_eq by exact Hnl. apply process_lines_dropped, H.
  - rewrite process_single_eq by exact Hnl.
    destruct H as (i & -> & Hi). rewrite bool_decide_true by exact Hi. reflexivity.
Qed.

(** C10 (as amended).  When every non-empty line of a multi-line
    reply is dropped (it fails to parse, is not a tagged array, carries
    an unknown tag or is a duplicate event), and when a reply of one
    line is a duplicate event, [send] returns the empty string: no
    notice is made up and nothing is raised.  A reply of one line that
    is not a duplicate event is returned as it is, also when it fails
    to parse or carries an unknown tag. *)
Theorem send_all_dropped_returns_empty
    (message : string) (c : Cassette G) (result_str : string) :
  mutex_locked c = false ->
  guest_reply G X message c = Some result_str ->
  (all_dropped json_parse (track_request message (event_tracker c)) result_str ->
   fst (send message c) = Ok EmptyString)
  /\ (contains_newline result_str = false ->
      (forall i, event_id result_str = Some i ->
         i ∉ track_request message (event_tracker c)) ->
      fst (send message c) = Ok result_str).
Proof.
  intros Hlock Hreply. rewrite (send_reply _ _ _ Hlock Hreply). split.
  - intros Hall. rewrite (process_messages_all_dropped _ _ Hall). reflexivity.
  - intros Hnl Hnew. rewrite process_single_eq by exact Hnl.
    destruct (event_id result_str) as [i|]; [|reflexivity].
    rewrite bool_decide_false by exact (Hnew i eq_refl). reflexivity.
Qed.

(** C6.  Once the message is written to the guest, a [send] export
    that returns pointer 0 makes [send] return the notice
    "send() returned null pointer", and one that yields no [i32] makes
    it return the notice "send() failed"; neither raises. *)
Theorem send_null_result_is_notice
    (message : string) (c : Cassette G) (msg_ptr : Z) (st1 st2 : Store G)
    (results : list Val) :
  mutex_locked c = false ->
  write_string (alloc_func X) message (store c) = (Ok msg_ptr, st1) ->
  send_func X [I32 msg_ptr; I32 (to_int32 (Z.of_nat (String.length message)))] st1
    = (results, st2) ->
  (results_i32 results = Some 0 -> fst (send message c) = Ok NOTICE_null_pointer)
  /\ (results_i32 results = None -> fst (send message c) = Ok NOTICE_send_failed).
Proof.
  intros Hlock Hw Hs.
  unfold Cassette.send, lock_guard. rewrite Hlock.
  cbn [event_tracker set_tracker set_locked store].
  rewrite Hw, Hs. split; intros ->; reflexivity.
Qed.

(** C5 (as amended).  [info()] returns the stub when the [info]
    export is absent, when its call yields no [i32], and when it
    returns pointer 0; otherwise it returns whatever string is read at
    the pointer, the empty string included. *)
Theorem info_stub_or_export_string (c : Cassette G) :
  mutex_locked c = false ->
  (info_func X = None -> fst (info c) = Ok INFO_stub)
  /\ (forall f results st1,
        info_func X = Some f -> f [] (store c) = (results, st1) ->
        (results_i32 results = None -> fst (info c) = Ok INFO_stub)
        /\ (results_i32 results = Some 0 -> fst (info c) = Ok INFO_stub)
        /\ (forall ptr, results_i32 results = Some ptr -> ptr <> 0 ->
              fst (info c) = read_string (memory st1) ptr)).
Proof.
  intros Hlock. unfold Cassette.info, lock_guard. rewrite Hlock.
  split.
  - intros ->. reflexivity.
  - intros f results st1 -> Hf. cbn [store set_locked]. rewrite Hf.
    split; [|split].
    + intros ->. reflexivity.
    + intros ->. reflexivity.
    + intros ptr -> Hptr. destruct (Z.eqb_spec ptr 0) as [E|_]; [exact (False_ind _ (Hptr E))|].
      destruct (read_string (memory st1) ptr); reflexivity.
Qed.



(** *** The duplicate check *)

(** X5.  [is_duplicate_event] marks what it checks.  On a non-empty
    array, which is what both callers pass (on any other value the
    indexing [parsed[0]] of the constant reference is an error), a
    message without an event id is never a duplicate and leaves the
    tracker alone.  An event with an id is a duplicate exactly when the
    tracker has the id; the check records the id, so that a second
    check of the same message answers that it is a duplicate. *)
Theorem is_duplicate_event_marks_seen (parsed : json) (ids : gset string) :
  is_array parsed = true ->
  1 <= size parsed ->
  (event_key parsed = None -> is_duplicate_event parsed ids = (false, ids))
  /\ (forall i, event_key parsed = Some i ->
        (fst (is_duplicate_event parsed ids) = true <-> i ∈ ids)
        /\ snd (is_duplicate_event parsed ids) = {[i]} ∪ ids
        /\ is_duplicate_event parsed (snd (is_duplicate_event parsed ids))
           = (true, snd (is_duplicate_event parsed ids))).
Proof.
  intros _ _. split.
  - intros He. rewrite is_duplicate_event_eq, He. reflexivity.
  - intros i He. pose proof (is_duplicate_event_eq parsed ids) as E.
    rewrite He in E. rewrite E. cbn [fst snd].
    split; [apply bool_decide_eq_true|]. split; [reflexivity|].
    rewrite is_duplicate_event_eq, He.
    assert (Hin : i ∈ ({[i]} ∪ ids : gset string))
      by (apply elem_of_union; left; apply elem_of_singleton; reflexivity).
    rewrite bool_decide_true by exact Hin. rewrite union_present by exact Hin.
    reflexivity.
Qed.

(** *** What message processing keeps, and what the tracker records *)

Lemma union_skip_present (i : string) (ids S : gset string) :
  i ∈ ids -> ids ∪ ({[i]} ∪ S) = ids ∪ S.
Proof.
  intros H. rewrite (assoc_L (∪)), (comm_L (∪) ids {[i]}), union_present by exact H.
  reflexivity.
Qed.

Lemma union_shift (i : string) (ids S : gset string) :
  {[i]} ∪ ids ∪ S = ids ∪ ({[i]} ∪ S).
Proof. rewrite (comm_L (∪) {[i]} ids), (assoc_L (∪)). reflexivity. Qed.

Lemma filter_nonempty_cons l lines :
  List.filter nonempty (l :: lines)
  = if is_empty l then List.filter nonempty lines else l :: List.filter nonempty lines.
Proof. unfold nonempty. simpl. destruct (is_empty l); reflexivity. Qed.

Lemma omap_event_id_cons l lines :
  omap event_id (l :: lines)
  = match event_id l with
    | Some i => i :: omap event_id lines
    | None => omap event_id lines
    end.
Proof. reflexivity. Qed.

(** An event line is kept unless the tracker has its id, and the
    tracker has the id afterwards. *)
Lemma process_line_event f ids m i :
  event_id m = Some i ->
  process_line (f, ids) m
  = if bool_decide (i ∈ ids) then (f, ids) else (f ++ [m], {[i]} ∪ ids).
Proof.
  intros He. rewrite process_line_eq. unfold Cassette.event_id in He.
  destruct (json_parse m) as [parsed|]; [|discriminate].
  pose proof He as Hk.
  apply event_key_Some in Hk as (e & members & rest & -> & _).
  rewrite He. reflexivity.
Qed.

(** A line with a known tag and no event id is kept. *)
Lemma process_line_plain f ids m :
  event_id m = None -> accepted m -> process_line (f, ids) m = (f ++ [m], ids).
Proof.
  intros He (t & e & rest & Hp & Hk). rewrite process_line_eq.
  unfold Cassette.event_id in He. rewrite Hp in *. rewrite Hk, He. reflexivity.
Qed.

(** The loop over the lines: the messages it keeps come after those it
    started from and are a sublist of the non-empty lines; the tracker
    gains the ids of the event lines, which are the ids of the events
    kept. *)
Lemma process_lines_spec lines f ids :
  exists kept,
    fst (process_lines lines (f, ids)) = f ++ kept
    /\ kept `sublist_of` List.filter nonempty lines
    /\ snd (process_lines lines (f, ids))
       = ids ∪ list_to_set (omap event_id (List.filter nonempty lines))
    /\ snd (process_lines lines (f, ids)) = ids ∪ list_to_set (omap event_id kept)
    /\ (forall m, m ∈ List.filter nonempty lines -> accepted m -> event_id m = None ->
          m ∈ kept).
Proof.
  revert f ids. induction lines as [|l lines IH]; intros f ids.
  - exists []. simpl. rewrite app_nil_r, union_empty_r_L.
    repeat split; try reflexivity. intros m Hm. inversion Hm.
  - rewrite process_lines_cons, filter_nonempty_cons.
    destruct (is_empty l) eqn:Hl; [apply IH|].
    destruct (process_line_cases f ids l)
      as [Heq|(Ha & [[He Heq]|(i & He & Hi & Heq)])]; rewrite Heq.
    + destruct (IH f ids) as (kept & Hf & Hsub & Hids & Hids' & Hall).
      exists kept. split; [exact Hf|]. split; [apply sublist_cons, Hsub|].
      assert (Hin : forall i, event_id l = Some i -> i ∈ ids).
      { intros i He. rewrite (process_line_event f ids l i He) in Heq.
        destruct (bool_decide (i ∈ ids)) eqn:Hb;
          [apply bool_decide_eq_true in Hb; exact Hb|].
        injection Heq as Habs _. exfalso.
        apply (f_equal length) in Habs. rewrite length_app in Habs. simpl in Habs. lia. }
      split; [|split; [exact Hids'|]].
      * rewrite Hids, omap_event_id_cons.
        destruct (event_id l) as [i|] eqn:He; [|reflexivity].
        simpl. rewrite union_skip_present by exact (Hin i eq_refl). reflexivity.
      * intros m Hm Hacc Hnone. apply elem_of_cons in Hm as [->|Hm]; [|auto].
        exfalso. rewrite (process_line_plain f ids l Hnone Hacc) in Heq.
        injection Heq as Habs. apply (f_equal length) in Habs.
        rewrite length_app in Habs. simpl in Habs. lia.
    + destruct (IH (f ++ [l]) ids) as (kept & Hf & Hsub & Hids & Hids' & Hall).
      exists (l :: kept). split; [rewrite Hf, <- app_assoc; reflexivity|].
      split; [apply sublist_skip, Hsub|]. split; [|split].
      * rewrite Hids, omap_event_id_cons, He. reflexivity.
      * rewrite Hids', omap_event_id_cons, He. reflexivity.
      * intros m Hm Hacc Hnone. apply elem_of_cons in Hm as [->|Hm];
          [apply elem_of_cons; left; reflexivity|apply elem_of_cons; right; auto].
    + destruct (IH (f ++ [l]) ({[i]} ∪ ids)) as (kept & Hf & Hsub & Hids & Hids' & Hall).
      exists (l :: kept). split; [rewrite Hf, <- app_assoc; reflexivity|].
      split; [apply sublist_skip, Hsub|]. split; [|split].
      * rewrite Hids, omap_event_id_cons, He. simpl. apply union_shift.
      * rewrite Hids', omap_event_id_cons, He. simpl. apply union_shift.
      * intros m Hm Hacc Hnone. apply elem_of_cons in Hm as [->|Hm];
          [apply elem_of_cons; left; reflexivity|apply elem_of_cons; right; auto].
Qed.

(** The same for a whole reply, with or without a newline. *)
Lemma process_messages_spec result ids :
  let kept := fst (process_messages result ids) in
  kept `sublist_of` candidates result
  /\ snd (process_messages result ids)
     = ids ∪ list_to_set (omap event_id (candidates result))
  /\ snd (process_messages result ids) = ids ∪ list_to_set (omap event_id kept)
  /\ (forall m, m ∈ candidates result -> accepted m -> event_id m = None -> m ∈ kept).
Proof.
  unfold candidates. destruct (contains_newline result) eqn:Hnl.
  - rewrite process_multi_eq by exact Hnl.
    destruct (process_lines_spec (getlines result) [] ids)
      as (kept & Hf & Hsub & Hids & Hids' & Hall).
    cbv zeta. rewrite Hf. simpl. auto.
  - rewrite process_single_eq by exact Hnl. cbv zeta.
    rewrite omap_event_id_cons.
    destruct (event_id result) as [i|] eqn:He.
    + destruct (bool_decide (i ∈ ids)) eqn:Hi; simpl; rewrite ?He; simpl.
      * apply bool_decide_eq_true in Hi.
        split; [apply sublist_cons; constructor|].
        rewrite union_skip_present by exact Hi.
        rewrite union_empty_r_L.
        split; [reflexivity|]. split; [reflexivity|]. intros m Hm _ Hnone.
        apply list_elem_of_singleton in Hm as ->. congruence.
      * split; [reflexivity|]. rewrite union_empty_r_L.
        split; [exact (comm_L (∪) {[i]} ids)|]. split; [exact (comm_L (∪) {[i]} ids)|].
        intros m Hm _ _. exact Hm.
    + simpl. rewrite He. simpl. rewrite union_empty_r_L.
      split; [reflexivity|]. split; [reflexivity|]. split; [reflexivity|].
      intros m Hm _ _. exact Hm.
Qed.

(** *** The first occurrence of an id *)

Abbreviation tagged := (tagged json_parse).
Abbreviation admitted := (admitted json_parse).
Abbreviation ids_of := (ids_of json_parse).
Abbreviation first_occurrences := (first_occurrences json_parse).
Abbreviation offered := (offered json_parse G X).
Abbreviation offered_all := (offered_all json_parse G X).

Lemma tagged_event m i : event_id m = Some i -> tagged m = true.
Proof.
  unfold Cassette.event_id, Cassette.tagged. intros He.
  destruct (json_parse m) as [parsed|]; [|discriminate].
  apply event_key_Some in He as (e & members & rest & -> & _). reflexivity.
Qed.

(** One turn of the loop, by the tag test and the id of the line. *)
Lemma process_line_tagged f ids m :
  process_line (f, ids) m
  = if tagged m then
      match event_id m with
      | Some i =>
        if bool_decide (i ∈ ids) then (f, ids) else (f ++ [m], {[i]} ∪ ids)
      | None => (f ++ [m], ids)
      end
    else (f, ids).
Proof.
  rewrite process_line_eq. unfold Cassette.tagged, Cassette.event_id.
  destruct (json_parse m) as [parsed|]; [|reflexivity].
  destruct parsed as [| | | | |elems|]; try reflexivity.
  destruct elems as [|a elems]; [reflexivity|].
  destruct a as [| | | |t| |]; try reflexivity.
  destruct elems as [|b rest]; reflexivity.
Qed.

Lemma ids_of_nil : ids_of [] = ∅.
Proof. reflexivity. Qed.

Lemma ids_of_cons m ms :
  ids_of (m :: ms)
  = match event_id m with
    | Some i => {[i]} ∪ ids_of ms
    | None => ids_of ms
    end.
Proof.
  unfold Cassette.ids_of. rewrite omap_event_id_cons.
  destruct (event_id m); reflexivity.
Qed.

(** The loop over the lines keeps the first occurrences among the
    tagged non-empty lines, and records the ids of all of them. *)
Lemma process_lines_first lines f ids :
  process_lines lines (f, ids)
  = (f ++ first_occurrences ids (List.filter tagged (List.filter nonempty lines)),
     ids ∪ ids_of (List.filter tagged (List.filter nonempty lines))).
Proof.
  revert f ids. induction lines as [|l lines IH]; intros f ids.
  - simpl. rewrite app_nil_r, ids_of_nil, union_empty_r_L. reflexivity.
  - rewrite process_lines_cons, filter_nonempty_cons.
    destruct (is_empty l); [apply IH|].
    rewrite process_line_tagged. cbn [List.filter].
    destruct (tagged l); [|apply IH].
    cbn [Cassette.first_occurrences]. rewrite ids_of_cons.
    destruct (event_id l) as [i|].
    + destruct (bool_decide (i ∈ ids)) eqn:Hi.
      * apply bool_decide_eq_true in Hi. rewrite IH.
        rewrite union_skip_present by exact Hi. reflexivity.
      * rewrite IH, <- app_assoc. simpl. f_equal. apply union_shift.
    + rewrite IH, <- app_assoc. reflexivity.
Qed.

(** Message processing returns the first occurrences among the
    admitted messages of the reply. *)
Lemma process_messages_first result ids :
  process_messages result ids
  = (first_occurrences ids (admitted result), ids ∪ ids_of (admitted result)).
Proof.
  unfold Cassette.admitted, candidates.
  destruct (contains_newline result) eqn:Hnl.
  - rewrite process_multi_eq by exact Hnl. apply process_lines_first.
  - rewrite process_single_eq by exact Hnl.
    cbn [Cassette.first_occurrences]. rewrite ids_of_cons, ids_of_nil.
    destruct (event_id result) as [i|]; [|rewrite union_empty_r_L; reflexivity].
    destruct (bool_decide (i ∈ ids)) eqn:Hi.
    + apply bool_decide_eq_true in Hi.
      rewrite union_skip_present, union_empty_r_L by exact Hi. reflexivity.
    + rewrite union_empty_r_L, (comm_L (∪) ids {[i]}). reflexivity.
Qed.

Lemma first_occurrences_app seen ms1 ms2 :
  first_occurrences seen (ms1 ++ ms2)
  = first_occurrences seen ms1 ++ first_occurrences (seen ∪ ids_of ms1) ms2.
Proof.
  revert seen. induction ms1 as [|m ms1 IH]; intros seen.
  - simpl. rewrite ids_of_nil, union_empty_r_L. reflexivity.
  - cbn [app Cassette.first_occurrences]. rewrite ids_of_cons.
    destruct (event_id m) as [i|]; [|rewrite IH; reflexivity].
    destruct (bool_decide (i ∈ seen)) eqn:Hi.
    + apply bool_decide_eq_true in Hi. rewrite IH.
      rewrite union_skip_present by exact Hi. reflexivity.
    + rewrite IH, union_shift. reflexivity.
Qed.

(** An event that stays is the first message of its id. *)
Lemma first_occurrences_first seen ms m i :
  m ∈ first_occurrences seen ms -> event_id m = Some i ->
  (i ∉ seen)
  /\ exists before after, ms = before ++ m :: after /\ (i ∉ ids_of before).
Proof.
  revert seen. induction ms as [|x ms IH]; intros seen Hm He; [inversion Hm|].
  cbn [Cassette.first_occurrences] in Hm.
  assert (Hnil : i ∉ ids_of []) by (rewrite ids_of_nil; apply not_elem_of_empty).
  destruct (event_id x) as [j|] eqn:Hx.
  - destruct (bool_decide (j ∈ seen)) eqn:Hj.
    + apply bool_decide_eq_true in Hj.
      destruct (IH seen Hm He) as (Hi & before & after & -> & Hb).
      split; [exact Hi|]. exists (x :: before), after. split; [reflexivity|].
      rewrite ids_of_cons, Hx. intros Hin.
      apply elem_of_union in Hin as [Hin|Hin]; [|exact (Hb Hin)].
      apply elem_of_singleton in Hin as ->. exact (Hi Hj).
    + apply bool_decide_eq_false in Hj.
      apply elem_of_cons in Hm as [->|Hm].
      * assert (i = j) as -> by congruence.
        split; [exact Hj|]. exists [], ms. split; [reflexivity|exact Hnil].
      * destruct (IH _ Hm He) as (Hi & before & after & -> & Hb).
        split; [intros Hin; apply Hi, elem_of_union; right; exact Hin|].
        exists (x :: before), after. split; [reflexivity|].
        rewrite ids_of_cons, Hx. intros Hin.
        apply elem_of_union in Hin as [Hin|Hin]; [|exact (Hb Hin)].
        apply Hi, elem_of_union. left. exact Hin.
  - apply elem_of_cons in Hm as [->|Hm]; [congruence|].
    destruct (IH seen Hm He) as (Hi & before & after & -> & Hb).
    split; [exact Hi|]. exists (x :: before), after. split; [reflexivity|].
    rewrite ids_of_cons, Hx. exact Hb.
Qed.

(** One call of [send] on an unlocked cassette: what it returns and
    what the tracker holds afterwards, from the messages it had. *)
Lemma send_offered message c :
  event_id NOTICE_send_failed = None ->
  event_id NOTICE_null_pointer = None ->
  mutex_locked c = false ->
  messages_of (fst (send message c))
  = List.filter nonempty
      (first_occurrences (track_request message (event_tracker c)) (offered message c))
  /\ event_tracker (snd (send message c))
     = track_request message (event_tracker c) ∪ ids_of (offered message c)
  /\ mutex_locked (snd (send message c)) = false.
Proof.
  intros Hn1 Hn2 Hlock.
  set (T0 := track_request message (event_tracker c)).
  unfold Cassette.send, lock_guard, Cassette.offered. rewrite Hlock.
  cbn [event_tracker set_tracker set_locked store]. fold T0.
  assert (Hnone : T0 = T0 ∪ ids_of []) by (rewrite ids_of_nil, union_empty_r_L; reflexivity).
  assert (Hnotice : forall n, event_id n = None -> T0 = T0 ∪ ids_of [n]).
  { intros n Hn. rewrite ids_of_cons, Hn. exact Hnone. }
  destruct (write_string _ _ _) as [[msg_ptr|w|] st1]; simpl_state;
    try (split; [reflexivity|split; [exact Hnone|reflexivity]]).
  destruct (send_func X _ st1) as [results st2].
  destruct (results_i32 results) as [result_ptr|]; simpl_state.
  2:{ cbn [Cassette.first_occurrences]. rewrite Hn1.
      split; [reflexivity|split; [apply Hnotice, Hn1|reflexivity]]. }
  destruct (result_ptr =? 0); simpl_state.
  { cbn [Cassette.first_occurrences]. rewrite Hn2.
    split; [reflexivity|split; [apply Hnotice, Hn2|reflexivity]]. }
  destruct (read_string _ _) as [result_str|w|]; simpl_state;
    try (split; [reflexivity|split; [exact Hnone|reflexivity]]).
  pose proof (process_messages_newline_free result_str T0) as Hfree.
  rewrite process_messages_first in *. simpl_state in *.
  split; [apply messages_of_render, Hfree|]. split; reflexivity.
Qed.

(** A run of calls none of which is a request. *)
Lemma send_all_offered messages c :
  event_id NOTICE_send_failed = None ->
  event_id NOTICE_null_pointer = None ->
  Forall (fun m => is_req m = false) messages ->
  mutex_locked c = false ->
  concat (map messages_of (fst (send_all messages c)))
  = List.filter nonempty (first_occurrences (event_tracker c) (offered_all messages c)).
Proof.
  intros Hn1 Hn2. revert c. induction messages as [|m rest IH]; intros c Hall Hlock.
  - reflexivity.
  - inversion Hall as [|? ? Hm Hrest]; subst.
    rewrite send_all_cons. cbn [fst map concat Cassette.offered_all].
    destruct (send_offered m c Hn1 Hn2 Hlock) as (Hr & Ht & Hl).
    rewrite track_request_eq, Hm in Hr, Ht.
    rewrite first_occurrences_app, List.filter_app, Hr. f_equal.
    rewrite (IH _ Hrest Hl), Ht. reflexivity.
Qed.

(** C2.  In a request window (a call of [send] with a [REQ], followed
    by calls that are not requests) the events returned to the caller
    carry pairwise distinct ids, and the event returned for an id is
    the first one: the messages returned in the window are the messages
    that the calls of the window had before the duplicate check, in
    their order, without every event whose id is the id of an event
    before it in the window (and without the empty text, which is no
    message); so a returned event has no event of its id before it,
    and the second and later events of an id are the ones left out.
    This holds for every guest, every state of the cassette at the
    start of the window, and every parser that does not read the two
    notices made up by [send] as events; on a cassette whose mutex is
    held nothing is returned at all. *)
Theorem no_duplicate_event_in_request_window
    (req : string) (later : list string) (c : Cassette G) :
  event_id NOTICE_send_failed = None ->
  event_id NOTICE_null_pointer = None ->
  is_req req = true ->
  Forall (fun m => is_req m = false) later ->
  NoDup (received_ids json_parse (fst (send_all (req :: later) c)))
  /\ (mutex_locked c = false ->
      concat (map messages_of (fst (send_all (req :: later) c)))
      = List.filter nonempty (first_occurrences ∅ (offered_all (req :: later) c))
      /\ forall m i,
           m ∈ concat (map messages_of (fst (send_all (req :: later) c))) ->
           event_id m = Some i ->
           exists before after,
             offered_all (req :: later) c = before ++ m :: after
             /\ i ∉ ids_of before).
Proof.
  intros Hn1 Hn2 Hreq Hlater. split.
  - unfold received_ids. rewrite send_all_cons. cbn [fst map concat].
    pose proof (send_fresh Hn1 Hn2 req c) as H1.
    rewrite track_request_eq, Hreq in H1.
    pose proof (send_all_fresh Hn1 Hn2 later (snd (send req c)) Hlater) as H2.
    destruct (fresh_app _ _ _ _ _ H1 H2) as [Hnd _]. exact Hnd.
  - intros Hlock.
    assert (Heq : concat (map messages_of (fst (send_all (req :: later) c)))
                  = List.filter nonempty
                      (first_occurrences ∅ (offered_all (req :: later) c))).
    { rewrite send_all_cons. cbn [fst map concat Cassette.offered_all].
      destruct (send_offered req c Hn1 Hn2 Hlock) as (Hr & Ht & Hl).
      rewrite track_request_eq, Hreq in Hr, Ht.
      rewrite first_occurrences_app, List.filter_app, Hr. f_equal.
      rewrite (send_all_offered later _ Hn1 Hn2 Hlater Hl), Ht. reflexivity. }
    split; [exact Heq|]. intros m i Hm He. rewrite Heq in Hm.
    apply list_elem_of_In, List.filter_In in Hm as [Hm _].
    apply list_elem_of_In in Hm.
    destruct (first_occurrences_first _ _ _ _ Hm He) as (_ & before & after & E & Hb).
    exists before, after. split; [exact E|exact Hb].
Qed.


(** X6.  Message processing neither reorders nor rewrites: the messages
    it returns are, in the order of the reply, some of the candidate
    messages of the reply (its non-empty lines, or the whole reply when
    it has no newline). *)
Theorem process_messages_keeps_order (result : string) (ids : gset string) :
  fst (process_messages result ids) `sublist_of` candidates result.
Proof. pose proof (process_messages_spec result ids) as H. apply H. Qed.

(** X7.  Message processing loses nothing it should keep.  A candidate
    with a known tag that carries no event id (a [NOTICE], an [EOSE],
    an event without a string id) is returned; and for every event id
    of the reply that the tracker does not have yet, an event with that
    id is returned. *)
Theorem process_messages_loses_no_message (result : string) (ids : gset string) :
  (forall m, m ∈ candidates result -> accepted m -> event_id m = None ->
     m ∈ fst (process_messages result ids))
  /\ (forall m i, m ∈ candidates result -> event_id m = Some i -> i ∉ ids ->
        i ∈ omap event_id (fst (process_messages result ids))).
Proof.
  destruct (process_messages_spec result ids) as (_ & Hids & Hids' & Hall).
  split; [exact Hall|].
  intros m i Hm He Hi.
  assert (Hin : i ∈ snd (process_messages result ids)).
  { rewrite Hids. apply elem_of_union. right. apply elem_of_list_to_set.
    apply list_elem_of_omap. exists m. split; [exact Hm|exact He]. }
  rewrite Hids' in Hin. apply elem_of_union in Hin as [Hin|Hin]; [contradiction|].
  apply elem_of_list_to_set in Hin. exact Hin.
Qed.

(** X8.  After message processing the tracker holds what it held before
    and the id of every event among the candidates of the reply, the
    events that were dropped as duplicates included; these are also the
    ids it held before and those of the events returned. *)
Theorem process_messages_tracker (result : string) (ids : gset string) :
  snd (process_messages result ids)
  = ids ∪ list_to_set (omap event_id (candidates result))
  /\ snd (process_messages result ids)
     = ids ∪ list_to_set (omap event_id (fst (process_messages result ids))).
Proof.
  destruct (process_messages_spec result ids) as (_ & Hids & Hids' & _). auto.
Qed.

Lemma process_lines_clean lines f ids :
  Forall accepted (List.filter nonempty lines) ->
  NoDup (omap event_id (List.filter nonempty lines)) ->
  (forall i, i ∈ omap event_id (List.filter nonempty lines) -> i ∉ ids) ->
  process_lines lines (f, ids)
  = (f ++ List.filter nonempty lines,
     ids ∪ list_to_set (omap event_id (List.filter nonempty lines))).
Proof.
  revert f ids. induction lines as [|l lines IH]; intros f ids Hacc Hnd Hnew.
  - simpl. rewrite app_nil_r, union_empty_r_L. reflexivity.
  - rewrite process_lines_cons. rewrite filter_nonempty_cons in *.
    destruct (is_empty l); [apply IH; assumption|].
    inversion Hacc as [|? ? Hl Hrest]; subst.
    rewrite omap_event_id_cons in *. destruct (event_id l) as [i|] eqn:He.
    + rewrite (process_line_event f ids l i He).
      rewrite bool_decide_false
        by (apply Hnew, elem_of_cons; left; reflexivity).
      apply NoDup_cons in Hnd as [Hi Hnd].
      rewrite IH; [|exact Hrest|exact Hnd|].
      * rewrite <- app_assoc. simpl. f_equal. apply union_shift.
      * intros j Hj Hin. apply elem_of_union in Hin as [Hin|Hin].
        -- apply elem_of_singleton in Hin as ->. exact (Hi Hj).
        -- apply (Hnew j); [apply elem_of_cons; right; exact Hj|exact Hin].
    + rewrite (process_line_plain f ids l He Hl).
      rewrite IH by assumption. rewrite <- app_assoc. reflexivity.
Qed.

(** X9.  A clean reply passes unchanged: when every candidate has a
    known tag and the events among them carry distinct ids that the
    tracker does not have, message processing returns all the
    candidates, in order, and records their ids. *)
Theorem process_messages_clean_reply (result : string) (ids : gset string) :
  Forall accepted (candidates result) ->
  NoDup (omap event_id (candidates result)) ->
  (forall i, i ∈ omap event_id (candidates result) -> i ∉ ids) ->
  process_messages result ids
  = (candidates result, ids ∪ list_to_set (omap event_id (candidates result))).
Proof.
  unfold candidates. destruct (contains_newline result) eqn:Hnl.
  - intros Hacc Hnd Hnew. rewrite process_multi_eq by exact Hnl.
    apply (process_lines_clean _ [] ids Hacc Hnd Hnew).
  - intros _ _ Hnew. rewrite process_single_eq by exact Hnl.
    rewrite omap_event_id_cons in *.
    destruct (event_id result) as [i|]; simpl in *.
    + rewrite bool_decide_false by (apply Hnew, elem_of_cons; left; reflexivity).
      rewrite union_empty_r_L. f_equal. exact (comm_L (∪) {[i]} ids).
    + rewrite union_empty_r_L. reflexivity.
Qed.

(** *** What [send] returns *)

Lemma candidates_nonempty result :
  result <> EmptyString -> Forall (fun m => nonempty m = true) (candidates result).
Proof.
  intros Hne. unfold candidates. destruct (contains_newline result).
  - apply Forall_forall. intros m Hm. apply list_elem_of_In, filter_In in Hm as [_ Hm].
    exact Hm.
  - constructor; [|constructor]. destruct result; [contradiction|reflexivity].
Qed.

Lemma filter_nonempty_id l :
  Forall (fun m => nonempty m = true) l -> List.filter nonempty l = l.
Proof.
  induction 1 as [|m l Hm _ IH]; [reflexivity|]. simpl. rewrite Hm, IH. reflexivity.
Qed.

(** X10.  The text that [send] returns splits back into the messages
    that were kept: when the guest's reply is not empty, cutting the
    returned text at its newlines gives the list that message
    processing returned, message for message. *)
Theorem send_result_splits_back (message : string) (c : Cassette G) (result_str : string) :
  mutex_locked c = false ->
  guest_reply G X message c = Some result_str ->
  result_str <> EmptyString ->
  messages_of (fst (send message c))
  = fst (process_messages result_str (track_request message (event_tracker c))).
Proof.
  intros Hlock Hreply Hne.
  rewrite (send_reply _ _ _ Hlock Hreply).
  rewrite messages_of_render by apply process_messages_newline_free.
  apply filter_nonempty_id. apply Forall_forall. intros m Hm.
  pose proof (candidates_nonempty result_str Hne) as Hc.
  rewrite Forall_forall in Hc. apply Hc.
  pose proof (process_messages_spec result_str
                (track_request message (event_tracker c))) as [Hsub _].
  eapply elem_of_sublist; [exact Hm|exact Hsub].
Qed.

(** X11.  The tracker after a call of [send] that got a reply from the
    guest: the ids of the events among the candidates of the reply,
    together with the ids it held before the call unless the message
    was a request. *)
Theorem send_tracker_after (message : string) (c : Cassette G) (result_str : string) :
  mutex_locked c = false ->
  guest_reply G X message c = Some result_str ->
  event_tracker (snd (send message c))
  = (if is_req message then ∅ else event_tracker c)
    ∪ list_to_set (omap event_id (candidates result_str)).
Proof.
  intros Hlock Hreply. rewrite <- track_request_eq.
  pose proof (process_messages_spec result_str
                (track_request message (event_tracker c))) as (_ & <- & _).
  unfold guest_reply in Hreply.
  unfold Cassette.send, lock_guard. rewrite Hlock.
  cbn [event_tracker set_tracker set_locked store].
  destruct (write_string _ _ _) as [[msg_ptr|w|] st1]; try discriminate.
  destruct (send_func X _ st1) as [results st2].
  destruct (results_i32 results) as [result_ptr|]; [|discriminate].
  destruct (result_ptr =? 0); [discriminate|].
  destruct (read_string _ _) as [s|w|]; try discriminate.
  injection Hreply as ->.
  destruct (Cassette.process_messages _ _ _) as [filtered ids]. reflexivity.
Qed.

(** X12.  An empty reply gives an empty result, whatever the parser
    makes of the empty text. *)
Theorem send_empty_reply (message : string) (c : Cassette G) :
  mutex_locked c = false ->
  guest_reply G X message c = Some EmptyString ->
  fst (send message c) = Ok EmptyString.
Proof.
  intros Hlock Hreply.
  rewrite (send_reply _ _ _ Hlock Hreply).
  rewrite process_single_eq by reflexivity.
  destruct (event_id EmptyString) as [i|]; [destruct (bool_decide _)|]; reflexivity.
Qed.

(** X13.  [send] raises only when the allocation of the message fails:
    the exception is one of the two of [write_string].  The head of
    [send] has run by then (a request has emptied the tracker), and the
    mutex is released. *)
Theorem send_raises_only_allocation_errors (message : string) (c : Cassette G) (w : string) :
  fst (send message c) = Throw w ->
  (w = "allocation failed" \/ w = "allocation returned null pointer")%string
  /\ event_tracker (snd (send message c)) = track_request message (event_tracker c)
  /\ mutex_locked (snd (send message c)) = false.
Proof.
  unfold Cassette.send, lock_guard.
  destruct (mutex_locked c); [discriminate|].
  cbn [event_tracker set_tracker set_locked store].
  destruct (write_string _ _ _) as [[msg_ptr|w'|] st1] eqn:Hw; simpl_state;
    [|intros H; injection H as ->;
      split; [exact (write_string_throws _ _ _ _ _ Hw)|split; reflexivity]
     |discriminate].
  destruct (send_func X _ st1) as [results st2].
  destruct (results_i32 results) as [result_ptr|]; [|discriminate].
  destruct (Z.eqb_spec result_ptr 0) as [->|Hptr]; [discriminate|].
  destruct (read_string _ _) as [result_str|w'|] eqn:Hr; simpl_state.
  - destruct (Cassette.process_messages _ _ _). discriminate.
  - apply read_string_throws in Hr. contradiction.
  - discriminate.
Qed.

(** X14.  [info()] raises nothing: it returns a string, or it has no
    defined behaviour (the mutex is already held, or the read leaves
    the memory). *)
Theorem info_never_raises (c : Cassette G) :
  (exists info_str, fst (info c) = Ok info_str) \/ fst (info c) = Undefined.
Proof.
  unfold Cassette.info, lock_guard.
  destruct (mutex_locked c); [right; reflexivity|].
  destruct (info_func X) as [f|]; [|left; eexists; reflexivity].
  cbn [store set_locked]. destruct (f [] (store c)) as [results st1].
  destruct (results_i32 results) as [ptr|]; [|left; eexists; reflexivity].
  destruct (Z.eqb_spec ptr 0) as [->|Hptr]; [left; eexists; reflexivity|].
  destruct (read_string (memory st1) ptr) as [s|w'|] eqn:Hr.
  - left. eexists. reflexivity.
  - apply read_string_throws in Hr. contradiction.
  - right. reflexivity.
Qed.

(** *** The description made up from [info()] *)






(** X16.  Without a [describe] export, [describe()] calls [info()]
    while it holds the mutex that [info()] locks: the call has no
    defined behaviour (in practice the thread waits for itself). *)
Theorem describe_without_export_relocks (c : Cassette G) :
  mutex_locked c = false -> describe_func X = None ->
  fst (describe c) = Undefined.
Proof.
  intros Hlock Hd. unfold Cassette.describe, lock_guard. rewrite Hlock, Hd.
  reflexivity.
Qed.

End Processing.

(** *** Construction *)

Section Construction.
Variable G : Type.
Variable instantiate : string -> outcome (Instance G * Store G).

Lemma optional_func_Some (instance : Instance G) (name : string) (f : Func G) :
  optional_func instance name = Some f <-> instance name = Some (ExternFunc f).
Proof.
  unfold optional_func.
  destruct (instance name) as [[g| | |]|]; split; congruence.
Qed.

(** X17.  The constructor accepts a module exactly when its instance
    exports a memory and two functions, [alloc_string] and [send]; the
    cassette then calls those two, starts with an empty tracker and a
    free mutex, and has each optional function when the instance
    exports a function of that name.  The missing exports are reported
    in the order memory, [alloc_string], [send]; a [send] export that
    is not a function counts as missing. *)
Theorem new_Cassette_required_exports (path : string) (instance : Instance G)
    (store0 : Store G) :
  instantiate path = Ok (instance, store0) ->
  (forall X c, new_Cassette G instantiate path = Ok (X, c) ->
     instance "memory" = Some ExternMemory
     /\ instance "alloc_string" = Some (ExternFunc (alloc_func X))
     /\ instance "send" = Some (ExternFunc (send_func X))
     /\ describe_func X = optional_func instance "describe"
     /\ info_func X = optional_func instance "info"
     /\ dealloc_func X = optional_func instance "dealloc_string"
     /\ get_size_func X = optional_func instance "get_allocation_size"
     /\ c = {| store := store0; event_tracker := ∅; mutex_locked := false |})
  /\ (forall name f,
        optional_func instance name = Some f <-> instance name = Some (ExternFunc f))
  /\ (instance "memory" = None ->
      new_Cassette G instantiate path = Throw "memory export not found")
  /\ (instance "memory" = Some ExternMemory -> instance "alloc_string" = None ->
      new_Cassette G instantiate path = Throw "alloc_string function not found")
  /\ (forall alloc, instance "memory" = Some ExternMemory ->
        instance "alloc_string" = Some (ExternFunc alloc) ->
        (forall send, instance "send" <> Some (ExternFunc send)) ->
        new_Cassette G instantiate path = Throw "send function not found")
  /\ (forall alloc send, instance "memory" = Some ExternMemory ->
        instance "alloc_string" = Some (ExternFunc alloc) ->
        instance "send" = Some (ExternFunc send) ->
        exists X c, new_Cassette G instantiate path = Ok (X, c)).
Proof.
  intros Hi. unfold new_Cassette, new_MemoryManager. rewrite Hi. cbn [obind].
  split; [|split; [|split; [|split; [|split]]]].
  - intros X c.
    destruct (instance "memory") as [[| | |]|]; try discriminate. cbn [get_memory obind].
    destruct (instance "alloc_string") as [[alloc| | |]|]; try discriminate.
    cbn [get_func obind].
    destruct (instance "send") as [[send| | |]|]; try discriminate.
    intros H. injection H as <- <-. cbn. auto 10.
  - apply optional_func_Some.
  - intros ->. reflexivity.
  - intros -> ->. reflexivity.
  - intros alloc -> -> Hs. cbn [get_memory get_func obind].
    destruct (instance "send") as [[send| | |]|]; try reflexivity.
    exfalso. exact (Hs send eq_refl).
  - intros alloc send -> -> ->. cbn [get_memory get_func obind]. eauto.
Qed.

End Construction.

End CassetteFacts.

(** ** The benchmark harness *)

Module BenchmarkFacts.
Import Double Benchmark.

(** [<] on doubles is asymmetric, NaN included. *)
Lemma SFcompare_antisym x y c :
  SFcompare x y = Some c -> SFcompare y x = Some (CompOpp c).
Proof.
  destruct x as [sx|sx| |sx mx ex], y as [sy|sy| |sy my ey]; simpl;
    try discriminate;
    try (intros H; injection H as <-; try destruct sx; try destruct sy; reflexivity).
  intros H; injection H as <-. f_equal.
  destruct sx, sy; try reflexivity;
    rewrite (Z.compare_antisym ex ey);
    destruct (ex ?= ey); simpl; try reflexivity;
    rewrite (Pos.compare_cont_antisym mx my Eq); simpl;
    unfold Pos.compare_cont; try rewrite CompOpp_involutive; reflexivity.
Qed.

Lemma ltb_asym x y : ltb x y = true -> ltb y x = false.
Proof.
  unfold ltb, SFltb. destruct (SFcompare x y) as [c|] eqn:Hc; [|discriminate].
  rewrite (SFcompare_antisym _ _ _ Hc). destruct c; try discriminate. reflexivity.
Qed.

#[global] Instance ascending_total : Total ascending.
Proof.
  intros x y. unfold ascending.
  destruct (ltb y x) eqn:H; [right; apply ltb_asym, H|left; reflexivity].
Qed.

(** The sorted sample is in ascending order and has the values of the
    sample. *)
Lemma sorted_ascending values : Sorted ascending (sorted values).
Proof. apply Sorted_merge_sort, _. Qed.

Lemma sorted_permutation values : sorted values ≡ₚ values.
Proof. apply merge_sort_Permutation. Qed.

Lemma sorted_length values : length (sorted values) = length values.
Proof. apply Permutation_length, sorted_permutation. Qed.

Lemma sort_without_nan values :
  Forall (fun v => is_nan v = false) values -> sort values = Ok (sorted values).
Proof.
  intros H. unfold sort.
  assert (Hn : existsb is_nan values = false).
  { induction H as [|v vs Hv _ IH]; [reflexivity|]. simpl. rewrite Hv, IH. reflexivity. }
  rewrite Hn. reflexivity.
Qed.

#[global] Instance rank_le_trans : Transitive rank_le.
Proof. intros [[a1 a2] a3] [[b1 b2] b3] [[c1 c2] c3]. unfold rank_le. lia. Qed.

#[global] Instance rank_le_antisym : AntiSymm (=) rank_le.
Proof.
  intros [[a1 a2] a3] [[b1 b2] b3]. unfold rank_le. intros H1 H2.
  assert (a1 = b1 /\ a2 = b2 /\ a3 = b3) as (-> & -> & ->) by lia. reflexivity.
Qed.

Lemma ascending_rank a b :
  is_nan a = false -> is_nan b = false ->
  (ascending a b <-> rank_le (rank a) (rank b)).
Proof.
  unfold ascending, ltb, SFltb.
  destruct a as [sa|sa| |sa ma ea], b as [sb|sb| |sb mb eb]; try discriminate;
    intros _ _; simpl;
    try (destruct sa); try (destruct sb); simpl; try (split; [intros _; lia|reflexivity]);
    try (split; [discriminate|lia]).
  - destruct (Z.compare_spec eb ea) as [->|H|H]; simpl;
      [|split; (discriminate || lia || reflexivity)..].
    change (Pos.compare_cont Eq mb ma) with (mb ?= ma)%positive.
    destruct (Pos.compare_spec mb ma) as [->|H'|H']; simpl;
      split; (discriminate || lia || reflexivity).
  - destruct (Z.compare_spec eb ea) as [->|H|H]; simpl;
      [|split; (discriminate || lia || reflexivity)..].
    change (Pos.compare_cont Eq mb ma) with (mb ?= ma)%positive.
    destruct (Pos.compare_spec mb ma) as [->|H'|H']; simpl;
      split; (discriminate || lia || reflexivity).
Qed.

Lemma sorted_by_rank l :
  Forall (fun v => is_nan v = false) l ->
  Sorted ascending l -> Sorted rank_le (rank <$> l).
Proof.
  intros Hnan Hs. induction Hs as [|a l Hs IH Hhd]; [constructor|].
  inversion Hnan as [|? ? Ha Hl]; subst.
  simpl. constructor; [apply IH, Hl|].
  destruct Hhd as [|b l' Hab]; simpl; constructor.
  inversion Hl as [|? ? Hb _]; subst.
  apply ascending_rank; assumption.
Qed.

(** Two values with the same rank compare equal. *)
Lemma same_rank_equal a b :
  is_nan a = false -> is_nan b = false -> rank a = rank b -> SFeqb a b = true.
Proof.
  unfold SFeqb.
  destruct a as [sa|sa| |sa ma ea], b as [sb|sb| |sb mb eb]; try discriminate;
    intros _ _; simpl;
    try (destruct sa); try (destruct sb); simpl;
    try reflexivity; try discriminate;
    intros H; injection H as He Hm;
    assert (ea = eb) as -> by lia; assert (ma = mb) as -> by lia;
    rewrite Z.compare_refl;
    change (Pos.compare_cont Eq mb mb) with (mb ?= mb)%positive;
    rewrite Pos.compare_refl; reflexivity.
Qed.

(** The sample in ascending order is the same whatever the sorting
    algorithm: any ascending arrangement of the sample has, at every
    index, a value equal to that of [sorted]. *)
Lemma sorted_index_unique (values arranged : list double) (i : nat) :
  Forall (fun v => is_nan v = false) values ->
  Sorted ascending arranged -> arranged ≡ₚ values ->
  (i < length values)%nat ->
  SFeqb (nth i arranged zero) (nth i (sorted values) zero) = true.
Proof.
  intros Hnan Hs Hp Hi.
  assert (Hnan1 : Forall (fun v => is_nan v = false) arranged).
  { rewrite Hp. exact Hnan. }
  assert (Hnan2 : Forall (fun v => is_nan v = false) (sorted values)).
  { rewrite sorted_permutation. exact Hnan. }
  assert (Heq : rank <$> arranged = rank <$> sorted values).
  { apply (Sorted_unique rank_le).
    - apply sorted_by_rank; assumption.
    - apply sorted_by_rank; [assumption|apply sorted_ascending].
    - apply fmap_Permutation. rewrite Hp. symmetry. apply sorted_permutation. }
  assert (Hlen1 : length arranged = length values) by (apply Permutation_length, Hp).
  assert (Hlen2 : length (sorted values) = length values) by apply sorted_length.
  apply same_rank_equal.
  - rewrite Forall_forall in Hnan1. apply Hnan1, list_elem_of_In, nth_In. lia.
  - rewrite Forall_forall in Hnan2. apply Hnan2, list_elem_of_In, nth_In. lia.
  - rewrite <- !(map_nth rank). change (map rank) with (fmap (M:=list) rank).
    rewrite Heq. reflexivity.
Qed.

(** On a value that is not negative, rounding toward zero is [floor]. *)
Lemma trunc_of_floor d k : floor d = Some k -> 0 <= k -> trunc d = Some k.
Proof.
  destruct d as [s|s| |s m e]; simpl; try discriminate; [auto|].
  intros H Hk. injection H as <-. destruct s; [|reflexivity].
  exfalso. simpl in Hk. apply Z.shiftl_nonneg in Hk. lia.
Qed.

(** The product of two values that are not negative is not negative. *)
Lemma binary_round_aux_not_negative m e l :
  negative (binary_round_aux prec emax false m e l) = false.
Proof.
  unfold binary_round_aux.
  destruct (shr_fexp prec emax m e l) as [mrs' e'].
  destruct (shr_fexp prec emax _ e' loc_Exact) as [mrs'' e''].
  destruct (shr_m mrs'') as [|p|p]; [reflexivity| |reflexivity].
  destruct (e'' <=? emax - prec); reflexivity.
Qed.

Lemma of_size_not_negative n : 0 <= n -> negative (of_size n) = false.
Proof.
  intros Hn. unfold of_size, binary_normalize.
  destruct n as [|p|p]; [reflexivity| |lia].
  unfold binary_round.
  destruct (shl_align _ _ _) as [mz ez]. apply binary_round_aux_not_negative.
Qed.

Lemma mul_not_negative x y :
  negative x = false -> negative y = false -> negative (mul x y) = false.
Proof.
  unfold mul, SFmul.
  destruct x as [sx|sx| |sx mx ex], y as [sy|sy| |sy my ey]; simpl;
    try reflexivity; try discriminate;
    try (destruct sx; try discriminate; destruct sy; try discriminate; reflexivity).
  intros Hx Hy. destruct sx; [discriminate|]. destruct sy; [discriminate|].
  apply binary_round_aux_not_negative.
Qed.

Lemma floor_not_negative d k : negative d = false -> floor d = Some k -> 0 <= k.
Proof.
  destruct d as [s|s| |s m e]; simpl; try discriminate.
  - intros _ H. injection H as <-. lia.
  - destruct s; [discriminate|]. intros _ H. injection H as <-.
    apply Z.shiftl_nonneg. simpl. lia.
Qed.

Lemma to_int32_small x : - 2 ^ 31 <= x < 2 ^ 31 -> to_int32 x = x.
Proof.
  intros H. unfold to_int32, two32. rewrite Z.mod_small by lia. lia.
Qed.

(** A value that [percentile] returns for a sample that is not empty
    is read at some index of the sorted sample. *)
Lemma percentile_Ok_nth (values : list double) (p v : double) :
  values <> [] -> percentile values p = Ok v ->
  exists i, nth_error (sorted values) i = Some v.
Proof.
  intros Hne. unfold percentile. destruct values as [|x values']; [contradiction|].
  set (values := x :: values') in *. unfold sort.
  destruct (existsb is_nan values); [discriminate|]. cbn [obind].
  destruct (to_int _) as [index| |]; try discriminate. cbn [obind].
  destruct (_ <? _); [|discriminate].
  destruct (nth_error _ _) as [y|] eqn:Hy; [|discriminate].
  intros H. injection H as <-. eauto.
Qed.

(** X18.  [percentile] never makes up a value: what it returns for a
    non-empty sample is one of the values of the sample. *)
Theorem percentile_returns_sample_value (values : list double) (p v : double) :
  values <> [] -> percentile values p = Ok v -> v ∈ values.
Proof.
  intros Hne H. destruct (percentile_Ok_nth values p v Hne H) as [i Hi].
  apply nth_error_In, list_elem_of_In in Hi.
  rewrite sorted_permutation in Hi. exact Hi.
Qed.

(** The value that [percentile] returns, by its index in the sorted
    sample. *)
Lemma percentile_value_at (values : list double) (p : double) (k : Z) :
  values <> [] ->
  Forall (fun v => is_nan v = false) values ->
  Z.of_nat (length values) <= 2 ^ 31 ->
  negative p = false ->
  floor (mul (of_size (Z.of_nat (length values))) p) = Some k ->
  k < 2 ^ 31 ->
  0 <= k
  /\ percentile values p
     = Ok (nth (Z.to_nat (Z.min k (Z.of_nat (length values) - 1))) (sorted values) zero).
Proof.
  intros Hne Hnan Hn Hp Hfloor Hk.
  assert (Hk0 : 0 <= k).
  { eapply floor_not_negative; [|exact Hfloor].
    apply mul_not_negative; [apply of_size_not_negative; lia|exact Hp]. }
  split; [exact Hk0|].
  unfold percentile. destruct values as [|v values']; [contradiction|].
  set (values := v :: values') in *.
  rewrite (sort_without_nan _ Hnan). cbn [obind].
  rewrite sorted_length.
  assert (Hlen : 0 < Z.of_nat (length values)) by (unfold values; simpl; lia).
  unfold to_int. rewrite (trunc_of_floor _ _ Hfloor) by lia.
  rewrite (proj2 (Z.leb_le _ _)) by lia.
  rewrite (proj2 (Z.ltb_lt _ _)) by lia.
  cbn [andb obind].
  rewrite to_int32_small by lia.
  set (i := Z.min k (Z.of_nat (length values) - 1)).
  assert (Hi : 0 <= i < Z.of_nat (length values)) by (unfold i; lia).
  unfold to_size_t. rewrite Z.mod_small by (unfold two64; lia).
  rewrite (proj2 (Z.ltb_lt _ _)) by lia.
  destruct (nth_error (sorted values) (Z.to_nat i)) as [x|] eqn:Hx.
  - f_equal. symmetry. apply nth_error_nth, Hx.
  - exfalso. apply nth_error_None in Hx. rewrite sorted_length in Hx. lia.
Qed.

(** C8.  For a non-empty sample of [n] values and a probability [p],
    [percentile] returns a value of the sample, and this value is the
    one at index [min(floor(p*n), n-1)] of the sample in ascending
    order, where [p*n] is the product that the program computes in
    [double]: whatever ascending arrangement of the sample the sort
    produces, its value at that index equals the value returned (as
    doubles compare, so that the two zeros count as one value).  For
    an empty sample [percentile] returns [0.0].  The sample holds no
    NaN and at most [2^31] values, [p] is not negative and the product
    is a finite value below [2^31], as it is for a probability. *)
Theorem percentile_sorted_index (values : list double) (p : double) (k : Z) :
  values <> [] ->
  Forall (fun v => is_nan v = false) values ->
  Z.of_nat (length values) <= 2 ^ 31 ->
  negative p = false ->
  floor (mul (of_size (Z.of_nat (length values))) p) = Some k ->
  k < 2 ^ 31 ->
  (exists v,
     percentile values p = Ok v
     /\ v ∈ values
     /\ forall arranged,
          Sorted ascending arranged -> arranged ≡ₚ values ->
          SFeqb (nth (Z.to_nat (Z.min k (Z.of_nat (length values) - 1))) arranged zero) v
          = true)
  /\ percentile [] p = Ok zero.
Proof.
  intros Hne Hnan Hn Hp Hfloor Hk. split; [|reflexivity].
  destruct (percentile_value_at values p k Hne Hnan Hn Hp Hfloor Hk) as [Hk0 Hv].
  eexists. split; [exact Hv|].
  assert (Hlen : 0 < Z.of_nat (length values))
    by (destruct values; [contradiction|simpl; lia]).
  assert (Hi : (Z.to_nat (Z.min k (Z.of_nat (length values) - 1)) < length values)%nat)
    by lia.
  split.
  - destruct (percentile_Ok_nth values p _ Hne Hv) as [j Hj].
    apply nth_error_In in Hj. apply list_elem_of_In.
    exact (Permutation_in _ (sorted_permutation values) Hj).
  - intros arranged Hs Hperm. apply sorted_index_unique; assumption.
Qed.

Lemma StronglySorted_nth {A} (R : relation A) (d : A) (l : list A) (i j : nat) :
  StronglySorted R l -> (i < j < length l)%nat -> R (nth i l d) (nth j l d).
Proof.
  intros Hs. revert i j.
  induction Hs as [|a l Hs IH Ha]; intros i j Hij; [simpl in Hij; lia|].
  destruct j as [|j]; [lia|]. destruct i as [|i]; simpl.
  - rewrite Forall_forall in Ha. apply Ha, list_elem_of_In, nth_In. simpl in Hij. lia.
  - apply IH. simpl in Hij. lia.
Qed.

Lemma rank_le_refl a : rank_le a a.
Proof. destruct a as [[a1 a2] a3]. unfold rank_le. lia. Qed.

(** In the sorted sample a later value is not below an earlier one. *)
Lemma sorted_nth_ascending (values : list double) (i j : nat) :
  Forall (fun v => is_nan v = false) values ->
  (i <= j < length values)%nat ->
  ascending (nth i (sorted values) zero) (nth j (sorted values) zero).
Proof.
  intros Hnan Hij.
  assert (Hnan' : Forall (fun v => is_nan v = false) (sorted values)).
  { rewrite sorted_permutation. exact Hnan. }
  assert (Hin : forall k, (k < length values)%nat ->
                  is_nan (nth k (sorted values) zero) = false).
  { intros k Hk. rewrite Forall_forall in Hnan'. apply Hnan', list_elem_of_In, nth_In.
    rewrite sorted_length. exact Hk. }
  apply ascending_rank; [apply Hin; lia|apply Hin; lia|].
  destruct (decide (i = j)) as [->|Hne]; [apply rank_le_refl|].
  pose proof (sorted_by_rank _ Hnan' (sorted_ascending values)) as Hs.
  apply (Sorted_StronglySorted rank_le _) in Hs.
  pose proof (StronglySorted_nth rank_le (rank zero) _ i j Hs) as H.
  change (fmap rank) with (map rank) in H. rewrite !map_nth in H.
  apply H. rewrite length_map, sorted_length. lia.
Qed.

(** X19.  A higher percentile is not a smaller value: when the index
    that [percentile] computes for [p] is not above the one it computes
    for [q], the value returned for [q] is not below the one returned
    for [p] (as for the P50, P95 and P99 of a report). *)
Theorem percentile_monotone (values : list double) (p q : double) (kp kq : Z) :
  values <> [] ->
  Forall (fun v => is_nan v = false) values ->
  Z.of_nat (length values) <= 2 ^ 31 ->
  negative p = false -> negative q = false ->
  floor (mul (of_size (Z.of_nat (length values))) p) = Some kp ->
  floor (mul (of_size (Z.of_nat (length values))) q) = Some kq ->
  kp <= kq < 2 ^ 31 ->
  exists vp vq,
    percentile values p = Ok vp /\ percentile values q = Ok vq /\ ltb vq vp = false.
Proof.
  intros Hne Hnan Hn Hp Hq Hkp Hkq Hk.
  destruct (percentile_value_at values p kp Hne Hnan Hn Hp Hkp) as [H0 Hvp]; [lia|].
  destruct (percentile_value_at values q kq Hne Hnan Hn Hq Hkq) as [_ Hvq]; [lia|].
  eexists _, _. split; [exact Hvp|]. split; [exact Hvq|].
  apply sorted_nth_ascending; [exact Hnan|].
  destruct values; [contradiction|]. simpl length in *. lia.
Qed.

(** X20.  A probability below zero is outside the domain of
    [percentile]: when the product truncates to a negative index, the
    function indexes the sorted sample before its first element, which
    has no defined behaviour. *)
Theorem percentile_negative_index (values : list double) (p : double) (k : Z) :
  values <> [] ->
  Forall (fun v => is_nan v = false) values ->
  Z.of_nat (length values) <= 2 ^ 31 ->
  trunc (mul (of_size (Z.of_nat (length values))) p) = Some k ->
  - 2 ^ 31 <= k < 0 ->
  percentile values p = Undefined.
Proof.
  intros Hne Hnan Hn Htrunc Hk.
  unfold percentile. destruct values as [|v values']; [contradiction|].
  set (values := v :: values') in *.
  rewrite (sort_without_nan _ Hnan). cbn [obind].
  rewrite sorted_length.
  assert (Hlen : 0 < Z.of_nat (length values)) by (unfold values; simpl; lia).
  unfold to_int. rewrite Htrunc.
  rewrite (proj2 (Z.leb_le _ _)) by lia.
  rewrite (proj2 (Z.ltb_lt _ _)) by lia.
  cbn [andb obind].
  rewrite to_int32_small by lia.
  rewrite Z.min_l by lia.
  assert (Hs : to_size_t k = two64 + k).
  { unfold to_size_t, two64. symmetry. apply (Z.mod_unique _ _ (-1)); lia. }
  rewrite Hs. rewrite (proj2 (Z.ltb_ge _ _)) by (unfold two64; lia). reflexivity.
Qed.

(** *** The report of a filter *)

Lemma rank_le_total a b : rank_le a b \/ rank_le b a.
Proof. destruct a as [[a1 a2] a3], b as [[b1 b2] b3]. unfold rank_le. lia. Qed.

Lemma smallest_is_least (rest : list double) (v : double) :
  Forall (fun x => is_nan x = false) (v :: rest) ->
  let lo := fold_left (fun smallest x => if ltb x smallest then x else smallest) rest v in
  is_nan lo = false
  /\ rank_le (rank lo) (rank v)
  /\ Forall (fun x => rank_le (rank lo) (rank x)) rest.
Proof.
  revert v. induction rest as [|x rest IH]; intros v Hnan.
  - simpl. inversion Hnan; subst. split; [assumption|]. split; [apply rank_le_refl|constructor].
  - inversion Hnan as [|? ? Hv Hrest]; subst. inversion Hrest as [|? ? Hx Hrest']; subst.
    cbn [fold_left]. cbv zeta. destruct (ltb x v) eqn:Hlt.
    + destruct (IH x Hrest) as (Hn & Hlo & Hall). cbv zeta in *.
      assert (Hxv : rank_le (rank x) (rank v)).
      { apply ascending_rank; [assumption..|]. unfold ascending. apply ltb_asym, Hlt. }
      split; [exact Hn|]. split; [etrans; eassumption|].
      constructor; [exact Hlo|exact Hall].
    + assert (Hvx : rank_le (rank v) (rank x)).
      { apply ascending_rank; [assumption..|]. exact Hlt. }
      assert (Hnan' : Forall (fun x => is_nan x = false) (v :: rest))
        by (constructor; assumption).
      destruct (IH v Hnan') as (Hn & Hlo & Hall). cbv zeta in *.
      split; [exact Hn|]. split; [exact Hlo|].
      constructor; [etrans; eassumption|exact Hall].
Qed.

Lemma largest_is_greatest (rest : list double) (v : double) :
  Forall (fun x => is_nan x = false) (v :: rest) ->
  let hi := fold_left (fun largest x => if ltb largest x then x else largest) rest v in
  is_nan hi = false
  /\ rank_le (rank v) (rank hi)
  /\ Forall (fun x => rank_le (rank x) (rank hi)) rest.
Proof.
  revert v. induction rest as [|x rest IH]; intros v Hnan.
  - simpl. inversion Hnan; subst. split; [assumption|]. split; [apply rank_le_refl|constructor].
  - inversion Hnan as [|? ? Hv Hrest]; subst. inversion Hrest as [|? ? Hx Hrest']; subst.
    cbn [fold_left]. cbv zeta. destruct (ltb v x) eqn:Hlt.
    + destruct (IH x Hrest) as (Hn & Hhi & Hall). cbv zeta in *.
      assert (Hvx : rank_le (rank v) (rank x)).
      { apply ascending_rank; [assumption..|]. unfold ascending. apply ltb_asym, Hlt. }
      split; [exact Hn|]. split; [etrans; eassumption|].
      constructor; [exact Hhi|exact Hall].
    + assert (Hxv : rank_le (rank x) (rank v)).
      { apply ascending_rank; [assumption..|]. exact Hlt. }
      assert (Hnan' : Forall (fun x => is_nan x = false) (v :: rest))
        by (constructor; assumption).
      destruct (IH v Hnan') as (Hn & Hhi & Hall). cbv zeta in *.
      split; [exact Hn|]. split; [exact Hhi|].
      constructor; [etrans; eassumption|exact Hall].
Qed.

(** Between the smallest and the largest value of a sample. *)
Lemma within_min_max (values : list double) (lo hi v : double) :
  Forall (fun x => is_nan x = false) values ->
  min_element values = Ok lo -> max_element values = Ok hi -> v ∈ values ->
  ltb v lo = false /\ ltb hi v = false.
Proof.
  intros Hnan Hlo Hhi Hv. destruct values as [|x rest]; [discriminate|].
  injection Hlo as <-. injection Hhi as <-.
  destruct (smallest_is_least rest x Hnan) as (Hn1 & Hx1 & Hall1).
  destruct (largest_is_greatest rest x Hnan) as (Hn2 & Hx2 & Hall2).
  cbv zeta in *.
  assert (Hvn : is_nan v = false).
  { rewrite Forall_forall in Hnan. apply Hnan, Hv. }
  rewrite Forall_forall in Hall1, Hall2.
  apply elem_of_cons in Hv as [->|Hv].
  - split; apply ascending_rank; assumption.
  - split; apply ascending_rank; auto.
Qed.

(** X21.  In the entry that [main] writes for a filter, no percentile is
    below the minimum or above the maximum: for timings without NaN,
    [min_ms <= p <= max_ms] for [p50_ms], [p95_ms] and [p99_ms]; and
    [count] is the number of timings. *)
Theorem filter_summary_within_bounds (times : list double) (event_counts : option (list Z))
    (entry : json) :
  Forall (fun x => is_nan x = false) times ->
  filter_summary times event_counts = Ok (Some entry) ->
  exists min_ms max_ms p50_ms p95_ms p99_ms,
    at_key entry "count" = JInt (Z.of_nat (length times))
    /\ at_key entry "min_ms" = JFloat min_ms
    /\ at_key entry "max_ms" = JFloat max_ms
    /\ at_key entry "p50_ms" = JFloat p50_ms
    /\ at_key entry "p95_ms" = JFloat p95_ms
    /\ at_key entry "p99_ms" = JFloat p99_ms
    /\ Forall (fun p => ltb p min_ms = false /\ ltb max_ms p = false)
         [p50_ms; p95_ms; p99_ms].
Proof.
  intros Hnan. unfold filter_summary.
  destruct times as [|t times']; [discriminate|].
  set (times := t :: times') in *.
  destruct (min_element times) as [lo| |] eqn:Hlo; try discriminate.
  destruct (max_element times) as [hi| |] eqn:Hhi; try discriminate.
  destruct (percentile times P50) as [p50| |] eqn:H50; try discriminate.
  destruct (percentile times P95) as [p95| |] eqn:H95; try discriminate.
  destruct (percentile times P99) as [p99| |] eqn:H99; try discriminate.
  cbn [obind]. cbv zeta. intros H.
  assert (Hne : times <> []) by discriminate.
  assert (Hin : Forall (fun p => ltb p lo = false /\ ltb hi p = false) [p50; p95; p99]).
  { assert (Hb : forall p q, percentile times q = Ok p ->
                   ltb p lo = false /\ ltb hi p = false).
    { intros p q Hq. eapply within_min_max; [exact Hnan|exact Hlo|exact Hhi|].
      destruct (percentile_Ok_nth times q p Hne Hq) as [i Hi].
      apply nth_error_In, list_elem_of_In in Hi.
      rewrite sorted_permutation in Hi. exact Hi. }
    constructor; [exact (Hb _ _ H50)|].
    constructor; [exact (Hb _ _ H95)|].
    constructor; [exact (Hb _ _ H99)|constructor]. }
  exists lo, hi, p50, p95, p99.
  destruct event_counts as [[|n counts]|].
  - injection H as <-. repeat split; try reflexivity; apply Hin.
  - unfold max_element_int in H. cbn [obind] in H. injection H as <-.
    repeat split; try reflexivity; apply Hin.
  - injection H as <-. repeat split; try reflexivity; apply Hin.
Qed.

(** *** Random hexadecimal strings *)

Section Random.
Variable R : Type.
Variable rand : R -> Z * R.

Lemma length_append_char s c :
  String.length (s +:+ String c EmptyString) = S (String.length s).
Proof.
  induction s as [|a s IH]; [reflexivity|].
  change (S (String.length (s +:+ String c EmptyString)) = S (S (String.length s))).
  rewrite IH. reflexivity.
Qed.

Lemma chars_append_char s c :
  list_ascii_of_string (s +:+ String c EmptyString) = list_ascii_of_string s ++ [c].
Proof.
  induction s as [|a s IH]; [reflexivity|].
  change (a :: list_ascii_of_string (s +:+ String c EmptyString)
          = a :: (list_ascii_of_string s ++ [c])).
  rewrite IH. reflexivity.
Qed.

Lemma get_in n s c : String.get n s = Some c -> In c (list_ascii_of_string s).
Proof.
  revert n. induction s as [|a s IH]; intros n; [discriminate|].
  destruct n as [|n]; simpl.
  - intros H. injection H as ->. left. reflexivity.
  - intros H. right. exact (IH n H).
Qed.

Lemma get_lt n s : (n < String.length s)%nat -> exists c, String.get n s = Some c.
Proof.
  revert n. induction s as [|a s IH]; intros n Hn; [simpl in Hn; lia|].
  destruct n as [|n]; simpl; [eauto|]. apply IH. simpl in Hn. lia.
Qed.

Lemma hex_loop_digits count result seed :
  (forall s, 0 <= fst (rand s)) ->
  exists text,
    hex_loop R rand count result seed
    = Ok (text, Nat.iter count (fun s => snd (rand s)) seed)
    /\ String.length text = (String.length result + count)%nat
    /\ ((forall c, In c (list_ascii_of_string result) ->
           In c (list_ascii_of_string hex_chars)) ->
        forall c, In c (list_ascii_of_string text) ->
                  In c (list_ascii_of_string hex_chars)).
Proof.
  intros Hrand. revert result seed.
  induction count as [|count IH]; intros result seed.
  - exists result. split; [reflexivity|]. split; [simpl; lia|auto].
  - cbn [hex_loop]. rewrite Nat.iter_succ_r.
    pose proof (Hrand seed) as Hx. destruct (rand seed) as [x seed'] eqn:Hr.
    cbn [fst snd] in *. cbv zeta.
    assert (Hi : 0 <= Z.rem x 16 < 16).
    { rewrite Z.rem_mod_nonneg by lia. apply Z.mod_pos_bound. lia. }
    rewrite (proj2 (Z.leb_le _ _)) by lia.
    destruct (get_lt (Z.to_nat (Z.rem x 16)) hex_chars) as [c Hc]; [simpl; lia|].
    rewrite Hc.
    destruct (IH (result +:+ String c EmptyString) seed') as (text & Ht & Hlen & Hin).
    exists text. split; [exact Ht|]. split.
    + rewrite Hlen, length_append_char. lia.
    + intros Hres. apply Hin. intros c'. rewrite chars_append_char.
      intros Hc'. apply in_app_or in Hc' as [Hc'|[<-|[]]]; [auto|].
      eapply get_in, Hc.
Qed.

(** X22.  For a length that is not negative, and a generator that
    returns no negative number, [generate_random_hex] returns a text of
    exactly that many characters, each one of [0123456789abcdef], and
    has called [rand()] once per character. *)
Theorem generate_random_hex_digits (length : Z) (seed : R) :
  (forall s, 0 <= fst (rand s)) ->
  0 <= length ->
  exists text,
    generate_random_hex R rand length seed
    = Ok (text, Nat.iter (Z.to_nat length) (fun s => snd (rand s)) seed)
    /\ Z.of_nat (String.length text) = length
    /\ (forall c, In c (list_ascii_of_string text) ->
                  In c (list_ascii_of_string hex_chars)).
Proof.
  intros Hrand Hlen. unfold generate_random_hex.
  rewrite (proj2 (Z.ltb_ge _ _)) by lia.
  destruct (hex_loop_digits (Z.to_nat length) EmptyString seed Hrand)
    as (text & Ht & Hl & Hin).
  exists text. split; [exact Ht|]. split; [simpl in Hl; lia|].
  apply Hin. intros c [].
Qed.

End Random.

(** *** The command line *)

(** X23.  The argument loop of [main].  Arguments that are not the
    iteration flag become the cassette paths, in their order.  The flag
    takes the argument after it as the iteration count, whatever that
    argument is, and the loop goes on after the two; a flag in last
    position is ignored. *)
Theorem parse_args_spec (pre : list string) (iterations : Z) (paths : list string) :
  Forall (fun a => is_iterations_flag a = false) pre ->
  parse_args pre iterations paths = Ok (iterations, paths ++ pre)
  /\ (forall flag, is_iterations_flag flag = true ->
        parse_args (pre ++ [flag]) iterations paths = Ok (iterations, paths ++ pre))
  /\ (forall flag value rest, is_iterations_flag flag = true ->
        parse_args (pre ++ flag :: value :: rest) iterations paths
        = obind (stoi value) (fun n => parse_args rest n (paths ++ pre))).
Proof.
  intros Hpre. revert paths.
  induction Hpre as [|a pre Ha _ IH]; intros paths.
  - rewrite app_nil_r. split; [reflexivity|].
    split; intros flag; [|intros value rest]; intros Hf; simpl; rewrite Hf; reflexivity.
  - destruct (IH (paths ++ [a])) as (H1 & H2 & H3).
    rewrite <- !app_assoc in *. simpl app in *.
    split; [|split].
    + simpl. rewrite Ha. exact H1.
    + intros flag Hf. simpl. rewrite Ha. apply H2, Hf.
    + intros flag value rest Hf. simpl. rewrite Ha. apply H3, Hf.
Qed.

Section Main.
Variable Result : Type.
Variable fs_exists : string -> outcome bool.
Variable benchmark_cassette : string -> Z -> outcome Result.
Variable report : list Result -> outcome unit.

Abbreviation run_all := (run_all Result fs_exists benchmark_cassette).
Abbreviation main := (main Result fs_exists benchmark_cassette report).
Abbreviation well_behaved := (well_behaved Result fs_exists benchmark_cassette report).

(** The loop over the paths ends, whatever the paths are. *)
Lemma run_all_returns paths iterations results :
  well_behaved iterations -> returns (run_all paths iterations results).
Proof.
  intros (Hfs & Hdef & _). revert results.
  induction paths as [|path rest IH]; intros results; simpl.
  - exists results. reflexivity.
  - destruct (Hfs path) as [found ->]. simpl.
    destruct found; simpl; [|apply IH].
    destruct (benchmark_cassette path iterations) as [r|w|] eqn:Hb;
      [apply IH|apply IH|].
    exfalso. exact (Hdef path Hb).
Qed.

(** C9 (as amended).  The program exits with status 1 when it is
    given no argument, and when its arguments name no cassette path;
    once a path is given it exits with status 0, whether or not any
    path names a cassette that exists or loads (provided that the
    iteration count is a number and the environment behaves). *)
Theorem main_exit_status (argv : list string) :
  ((length argv < 2)%nat -> main argv = Ok {| status := 1; reported := [] |})
  /\ (forall iterations paths,
        (2 <= length argv)%nat ->
        parse_args (tl argv) 100 [] = Ok (iterations, paths) ->
        (paths = [] -> main argv = Ok {| status := 1; reported := [] |})
        /\ (paths <> [] -> well_behaved iterations ->
            exists results, main argv = Ok {| status := 0; reported := results |})).
Proof.
  unfold Benchmark.main. split.
  - intros H. rewrite (proj2 (Z.ltb_lt _ _)) by lia. reflexivity.
  - intros iterations paths H Hargs.
    rewrite (proj2 (Z.ltb_ge _ _)) by lia. rewrite Hargs. cbn [obind].
    split.
    + intros ->. reflexivity.
    + intros Hne Hwb. destruct paths as [|path rest]; [contradiction|].
      destruct (run_all_returns (path :: rest) iterations [] Hwb) as [results Hr].
      exists results. rewrite Hr. cbn [obind].
      destruct results as [|r results']; [reflexivity|].
      destruct Hwb as (_ & _ & Hrep). destruct (Hrep (r :: results')) as [u ->].
      reflexivity.
Qed.

(** The loop over the paths adds, in the order of the paths, the result
    of every path that exists and whose benchmark returns. *)
Lemma run_all_in_order paths iterations results :
  well_behaved iterations ->
  run_all paths iterations results
  = Ok (results ++
        omap (fun path =>
                match fs_exists path, benchmark_cassette path iterations with
                | Ok true, Ok r => Some r
                | _, _ => None
                end) paths).
Proof.
  intros (Hfs & Hdef & _). revert results.
  induction paths as [|path rest IH]; intros results; simpl.
  - rewrite app_nil_r. reflexivity.
  - destruct (Hfs path) as [found ->]. simpl.
    destruct found; simpl; [|apply IH].
    destruct (benchmark_cassette path iterations) as [r|w|] eqn:Hb.
    + rewrite IH, <- app_assoc. reflexivity.
    + apply IH.
    + exfalso. exact (Hdef path Hb).
Qed.

(** X24.  What a run reports: once a path is given, the program exits
    with status 0 and reports one result for each path that names an
    existing file and whose benchmark returns, in the order of the
    command line; a path that does not exist and a benchmark that
    throws are skipped, and the paths after them are still run. *)
Theorem main_reports_in_order (argv : list string) (iterations : Z) (paths : list string) :
  (2 <= length argv)%nat ->
  parse_args (tl argv) 100 [] = Ok (iterations, paths) ->
  paths <> [] ->
  well_behaved iterations ->
  main argv
  = Ok {| status := 0;
          reported :=
            omap (fun path =>
                    match fs_exists path, benchmark_cassette path iterations with
                    | Ok true, Ok r => Some r
                    | _, _ => None
                    end) paths |}.
Proof.
  intros Hargc Hargs Hne Hwb. unfold Benchmark.main.
  rewrite (proj2 (Z.ltb_ge _ _)) by lia. rewrite Hargs. cbn [obind].
  destruct paths as [|path rest]; [contradiction|].
  rewrite (run_all_in_order _ _ _ Hwb). cbn [obind app].
  destruct (omap _ _) as [|r results]; [reflexivity|].
  destruct Hwb as (_ & _ & Hrep). destruct (Hrep (r :: results)) as [u ->].
  reflexivity.
Qed.

End Main.

End BenchmarkFacts.

(** ** The loader and the harness on concrete inputs *)

Module Scenarios.
Import MemoryManager MemoryManagerFacts Cassette CassetteFacts Guests.
Import Double Benchmark BenchmarkFacts.

(** C7: the read at pointer -1 leaves the memory. *)
Lemma read_string_wrapping_pointer_witness :
  read_string blank (-1) = Undefined.
Proof.
  apply (read_string_wrapping_pointer blank (-1)).
  - lia.
  - vm_compute. split; discriminate.
Defined.

(** C1: a single reply with an unknown tag is returned as it is. *)
Lemma single_reply_with_unknown_tag_is_returned :
  contains_newline BOGUS_x = false
  /\ Json.parse BOGUS_x = Some (JArray [JString "BOGUS"; JString "x"])
  /\ fst (process_messages Json.parse BOGUS_x ∅) = [BOGUS_x]
  /\ fst (send Json.parse unit (sending (replying BOGUS_x)) REQ_s1 (loaded ∅)) = Ok BOGUS_x.
Proof. repeat split; vm_compute; reflexivity. Qed.

Lemma process_messages_tag_filter_witness :
  contains_newline reply_S3 = true
  /\ forall m, m ∈ fst (process_messages Json.parse reply_S3 ∅) ->
       m ∈ getlines reply_S3 /\ is_empty m = false /\
       exists t e rest,
         Json.parse m = Some (JArray (JString t :: e :: rest))
         /\ (t = "NOTICE" \/ t = "EVENT" \/ t = "EOSE")%string.
Proof.
  split; [reflexivity|].
  apply (proj1 (process_messages_tag_filter Json.parse reply_S3 ∅)). reflexivity.
Defined.

Lemma no_duplicate_event_in_request_window_witness :
  is_req Json.parse REQ_s1 = true
  /\ is_req Json.parse CLOSE_s1 = false
  /\ offered_all Json.parse unit (sending (replying reply_twice))
       [REQ_s1; CLOSE_s1] (loaded {["a"]})
     = [first_a; second_a; EOSE_s1; first_a; second_a; EOSE_s1]
  /\ NoDup (received_ids Json.parse
              (fst (send_all Json.parse unit (sending (replying reply_twice))
                      [REQ_s1; CLOSE_s1] (loaded {["a"]}))))
  /\ concat (map messages_of
               (fst (send_all Json.parse unit (sending (replying reply_twice))
                       [REQ_s1; CLOSE_s1] (loaded {["a"]}))))
     = [first_a; EOSE_s1; EOSE_s1].
Proof.
  split; [reflexivity|]. split; [reflexivity|]. split; [vm_compute; reflexivity|].
  assert (Hlater : Forall (fun m => is_req Json.parse m = false) [CLOSE_s1])
    by (constructor; [reflexivity|constructor]).
  destruct (no_duplicate_event_in_request_window Json.parse unit
              (sending (replying reply_twice)) REQ_s1 [CLOSE_s1] (loaded {["a"]})
              eq_refl eq_refl eq_refl Hlater) as [Hnd Hfirst].
  split; [exact Hnd|].
  destruct (Hfirst eq_refl) as [Heq _]. rewrite Heq. vm_compute. reflexivity.
Defined.



(** C10: a reply of one line that is not JSON comes back as it is,
    although the line is one that message processing drops from a
    multi-line reply. *)
Lemma single_unparsable_reply_is_returned :
  contains_newline "FOO" = false
  /\ Forall (dropped Json.parse ∅) (candidates "FOO")
  /\ guest_reply unit (sending (replying "FOO")) CLOSE_s1 (loaded ∅) = Some "FOO"%string
  /\ fst (send Json.parse unit (sending (replying "FOO")) CLOSE_s1 (loaded ∅))
     = Ok "FOO"%string
  /\ fst (send Json.parse unit (sending (replying "FOO")) CLOSE_s1 (loaded ∅))
     <> Ok EmptyString.
Proof.
  split; [reflexivity|]. split.
  - constructor; [|constructor]. apply dropped_parse_failure. vm_compute. reflexivity.
  - split; [vm_compute; reflexivity|].
    assert (E : fst (send Json.parse unit (sending (replying "FOO")) CLOSE_s1 (loaded ∅))
                = Ok "FOO"%string) by (vm_compute; reflexivity).
    split; [exact E|]. rewrite E. discriminate.
Qed.

Lemma send_all_dropped_returns_empty_witness :
  fst (send Json.parse unit (sending (replying reply_dropped)) CLOSE_s1 (loaded {["a"]}))
  = Ok EmptyString
  /\ fst (send Json.parse unit (sending (replying BOGUS_x)) CLOSE_s1 (loaded {["a"]}))
     = Ok BOGUS_x.
Proof.
  split.
  - apply (send_all_dropped_returns_empty Json.parse unit
             (sending (replying reply_dropped)) CLOSE_s1 (loaded {["a"]}) reply_dropped).
    + reflexivity.
    + vm_compute; reflexivity.
    + change (Forall (dropped Json.parse {["a"]}) ["FOO"; BOGUS_x; EVENT_a]).
      constructor; [apply dropped_parse_failure; vm_compute; reflexivity|].
      constructor;
        [eapply dropped_unknown_tag; [vm_compute; reflexivity|reflexivity]|].
      constructor; [|constructor].
      apply (dropped_duplicate Json.parse _ _ "a"); [vm_compute; reflexivity|].
      apply elem_of_singleton. reflexivity.
  - apply (send_all_dropped_returns_empty Json.parse unit
             (sending (replying BOGUS_x)) CLOSE_s1 (loaded {["a"]}) BOGUS_x).
    + reflexivity.
    + vm_compute; reflexivity.
    + reflexivity.
    + intros i Hi. vm_compute in Hi. discriminate.
Defined.

Lemma send_null_result_is_notice_witness :
  fst (send Json.parse unit (sending (returning [I32 0])) REQ_s1 (loaded ∅))
  = Ok NOTICE_null_pointer
  /\ fst (send Json.parse unit (sending (returning [])) REQ_s1 (loaded ∅))
     = Ok NOTICE_send_failed.
Proof.
  split.
  - eapply (proj1 (send_null_result_is_notice Json.parse unit
                     (sending (returning [I32 0])) REQ_s1 (loaded ∅) 8 _ _ [I32 0]
                     eq_refl eq_refl eq_refl)).
    reflexivity.
  - eapply (proj2 (send_null_result_is_notice Json.parse unit
                     (sending (returning [])) REQ_s1 (loaded ∅) 8 _ _ []
                     eq_refl eq_refl eq_refl)).
    reflexivity.
Defined.

(** C5: an [info] export whose string is empty. *)
Lemma info_returns_empty_string :
  fst (info unit (exports (returning []) None (Some (replying EmptyString))) (loaded ∅)) = Ok EmptyString
  /\ INFO_stub <> EmptyString.
Proof. split; [vm_compute; reflexivity|discriminate]. Qed.

Lemma info_stub_or_export_string_witness :
  fst (info unit (exports (returning []) None None) (loaded ∅)) = Ok INFO_stub
  /\ fst (info unit (exports (returning []) None (Some (returning [I32 0]))) (loaded ∅))
     = Ok INFO_stub.
Proof.
  split.
  - apply (proj1 (info_stub_or_export_string unit
                    (exports (returning []) None None) (loaded ∅) eq_refl)).
    reflexivity.
  - eapply (proj1 (proj2 (proj2 (info_stub_or_export_string unit
              (exports (returning []) None (Some (returning [I32 0]))) (loaded ∅) eq_refl)
              (returning [I32 0]) [I32 0] _ eq_refl eq_refl))).
    reflexivity.
Defined.



Lemma percentile_sorted_index_witness :
  percentile [three; one; two] p95 = Ok three
  /\ (forall arranged,
        Sorted ascending arranged -> arranged ≡ₚ [three; one; two] ->
        SFeqb (nth 2 arranged zero) three = true)
  /\ percentile [] p95 = Ok zero.
Proof.
  assert (Hnan : Forall (fun v => is_nan v = false) [three; one; two])
    by (repeat constructor).
  assert (Hlen : Z.of_nat (length [three; one; two]) <= 2 ^ 31)
    by (vm_compute; discriminate).
  destruct (percentile_sorted_index [three; one; two] p95 2
              ltac:(discriminate) Hnan Hlen eq_refl eq_refl ltac:(lia))
    as [(v & Hv & _ & Harr) Hempty].
  assert (E : percentile [three; one; two] p95 = Ok three) by (vm_compute; reflexivity).
  rewrite E in Hv. injection Hv as <-.
  split; [exact E|]. split; [exact Harr|exact Hempty].
Defined.

(** C9: a path that names no file; the program exits with status 0. *)
Lemma main_exits_0_without_any_cassette :
  no_file "missing.wasm" = Ok false
  /\ main unit no_file not_loadable no_report ["benchmark"; "missing.wasm"]%string
     = Ok {| status := 0; reported := [] |}.
Proof. split; reflexivity. Qed.

Lemma well_behaved_sample : well_behaved unit no_file not_loadable no_report 100.
Proof.
  split; [|split].
  - intros path. exists false. reflexivity.
  - intros path. discriminate.
  - intros results. exists tt. reflexivity.
Defined.

Lemma main_exit_status_witness :
  main unit no_file not_loadable no_report ["benchmark"]%string
  = Ok {| status := 1; reported := [] |}
  /\ main unit no_file not_loadable no_report ["benchmark"; "-i"; "5"]%string
     = Ok {| status := 1; reported := [] |}
  /\ exists results,
       main unit no_file not_loadable no_report ["benchmark"; "missing.wasm"]%string
       = Ok {| status := 0; reported := results |}.
Proof.
  split; [|split].
  - apply (proj1 (main_exit_status unit no_file not_loadable no_report
                    ["benchmark"]%string)).
    simpl. lia.
  - apply (proj1 (proj2 (main_exit_status unit no_file not_loadable no_report
                    ["benchmark"; "-i"; "5"]%string)
                    5 [] ltac:(simpl; lia) eq_refl)).
    reflexivity.
  - apply (proj2 (proj2 (main_exit_status unit no_file not_loadable no_report
                    ["benchmark"; "missing.wasm"]%string)
                    100 ["missing.wasm"]%string ltac:(simpl; lia) eq_refl)).
    + discriminate.
    + exact well_behaved_sample.
Defined.

(** An iteration count that is not a number: [std::stoi] throws and
    nothing in [main] catches it. *)
Example main_iterations_not_a_number :
  main unit no_file not_loadable no_report ["benchmark"; "-i"; "many"; "a.wasm"]%string
  = Throw "stoi".
Proof. reflexivity. Qed.

(** Without a [describe] export, [describe()] does not come back. *)
Example describe_without_export :
  fst (describe Json.parse unit (exports (returning []) None (Some (replying INFO_stub)))
         (loaded ∅)) = Undefined.
Proof. reflexivity. Qed.

(** *** The scenarios of the specification *)

(** S1 and S2: the duplicate is dropped, and a second request gets the
    same two messages. *)
Example scenario_S1_S2 :
  fst (send_all Json.parse unit (sending (replying reply_S1)) [REQ_s1; REQ_s1] (loaded ∅))
  = [Ok (EVENT_a +:+ nl +:+ qq "['EOSE','s1']");
     Ok (EVENT_a +:+ nl +:+ qq "['EOSE','s1']")].
Proof. vm_compute. reflexivity. Qed.

(** S3: the line that is not JSON and the unknown tag are dropped. *)
Example scenario_S3 :
  fst (process_messages Json.parse reply_S3 ∅) = [qq "['NOTICE','ok']"].
Proof. vm_compute. reflexivity. Qed.

(** S5: an MSGB frame is read without its header. *)
Example scenario_S5 : read_string memory_S5 1 = Ok "hello".
Proof. reflexivity. Qed.

(** With 100 samples and p = 0.95 the product computed in [double] is
    exactly 95. *)
Example p95_of_100 : floor (mul (of_size 100) p95) = Some 95.
Proof. vm_compute. reflexivity. Qed.

(** *** Further properties on concrete inputs *)

Lemma write_string_stores_message_witness :
  load (memory (snd (write_string (returning [I32 8]) "hi" (store (loaded ∅))))) 8 2
  = Some (list_byte_of_string "hi").
Proof.
  exact (proj1 (proj2 (proj2 (proj2 (proj2
    (write_string_stores_message (returning [I32 8]) "hi" (store (loaded ∅))
       (snd (write_string (returning [I32 8]) "hi" (store (loaded ∅)))) 8 eq_refl)))))).
Defined.

Lemma write_string_read_string_witness :
  read_string (memory (snd (write_string (returning [I32 8]) "hi" (store (loaded ∅))))) 8
  = Ok "hi"%string.
Proof.
  apply (write_string_read_string (returning [I32 8]) "hi" (store (loaded ∅))).
  - reflexivity.
  - lia.
  - intros H. repeat (apply elem_of_cons in H as [H|H]; [discriminate|]). inversion H.
  - discriminate.
  - left. reflexivity.
Defined.

Lemma read_string_decodes_witness :
  read_string memory_S5 1 = Ok "hello"%string
  /\ exists bytes rest,
       read_string (memory_with "abc") 64 = Ok (string_of_list_byte bytes)
       /\ skipn (Z.to_nat 64) (memory_with "abc") = bytes ++ rest
       /\ (x00 ∉ bytes)
       /\ (rest = [] \/ exists r, rest = x00 :: r).
Proof.
  split.
  - apply (proj1 (read_string_decodes memory_S5 1 ltac:(lia) ltac:(simpl; lia))
             (list_byte_of_string "hello")).
    exists [x05; x00; x00; x00]%byte.
    split; [reflexivity|]. split; [reflexivity|].
    split; [vm_compute; discriminate|reflexivity].
  - apply (proj2 (read_string_decodes (memory_with "abc") 64 ltac:(lia)
                    ltac:(vm_compute; discriminate))).
    intros payload (lenb & Hsig & _). vm_compute in Hsig. discriminate Hsig.
Defined.

Lemma read_string_truncated_frame_witness :
  exists rest, read_string memory_cut 1 = Ok ("MSGB" +:+ rest).
Proof.
  apply (read_string_truncated_frame memory_cut 1).
  - lia.
  - reflexivity.
  - right. exists [xff; x00; x00; x00]%byte. split; reflexivity.
Defined.

Lemma is_duplicate_event_marks_seen_witness :
  event_key (JArray [JString "EVENT"; JString "s1"; JObject [("id", JString "a")]])
  = Some "a"%string
  /\ (fst (is_duplicate_event
             (JArray [JString "EVENT"; JString "s1"; JObject [("id", JString "a")]]) ∅)
      = true <-> "a"%string ∈ (∅ : gset string))
  /\ snd (is_duplicate_event
            (JArray [JString "EVENT"; JString "s1"; JObject [("id", JString "a")]]) ∅)
     = {["a"%string]} ∪ ∅.
Proof.
  split; [reflexivity|].
  destruct (is_duplicate_event_marks_seen
              (JArray [JString "EVENT"; JString "s1"; JObject [("id", JString "a")]]) ∅
              eq_refl) as [_ H].
  - simpl. lia.
  - destruct (H "a"%string eq_refl) as (Hdup & Hids & _). split; [exact Hdup|exact Hids].
Defined.

Lemma process_messages_clean_reply_witness :
  process_messages Json.parse reply_clean ∅
  = (candidates reply_clean,
     ∅ ∪ list_to_set (omap (event_id Json.parse) (candidates reply_clean))).
Proof.
  apply (process_messages_clean_reply Json.parse reply_clean ∅).
  - change (Forall (accepted Json.parse) [EVENT_a; qq "['EOSE','s1']"]).
    constructor; [|constructor; [|constructor]].
    + eexists _, _, _. split; [vm_compute; reflexivity|reflexivity].
    + eexists _, _, _. split; [vm_compute; reflexivity|reflexivity].
  - assert (E : omap (event_id Json.parse) (candidates reply_clean) = ["a"]%string)
      by (vm_compute; reflexivity).
    rewrite E. apply NoDup_singleton.
  - intros i _. apply not_elem_of_empty.
Defined.

Lemma send_result_splits_back_witness :
  messages_of (fst (send Json.parse unit (sending (replying reply_S1)) REQ_s1 (loaded ∅)))
  = fst (process_messages Json.parse reply_S1
           (track_request Json.parse REQ_s1 (event_tracker (loaded ∅)))).
Proof.
  apply (send_result_splits_back Json.parse unit (sending (replying reply_S1))
           REQ_s1 (loaded ∅) reply_S1).
  - reflexivity.
  - vm_compute. reflexivity.
  - intros H. vm_compute in H. discriminate H.
Defined.

Lemma send_tracker_after_witness :
  event_tracker (snd (send Json.parse unit (sending (replying reply_S1)) CLOSE_s1
                        (loaded {["b"]})))
  = (if is_req Json.parse CLOSE_s1 then ∅ else event_tracker (loaded {["b"]}))
    ∪ list_to_set (omap (event_id Json.parse) (candidates reply_S1)).
Proof.
  apply (send_tracker_after Json.parse unit (sending (replying reply_S1)) CLOSE_s1
           (loaded {["b"]}) reply_S1).
  - reflexivity.
  - vm_compute. reflexivity.
Defined.

Lemma send_empty_reply_witness :
  fst (send Json.parse unit (sending (replying EmptyString)) REQ_s1 (loaded ∅))
  = Ok EmptyString.
Proof.
  apply (send_empty_reply Json.parse unit (sending (replying EmptyString)) REQ_s1 (loaded ∅)).
  - reflexivity.
  - vm_compute. reflexivity.
Defined.

Lemma send_raises_only_allocation_errors_witness :
  fst (send Json.parse unit out_of_memory REQ_s1 (loaded {["a"]})) = Throw "allocation failed"
  /\ event_tracker (snd (send Json.parse unit out_of_memory REQ_s1 (loaded {["a"]})))
     = track_request Json.parse REQ_s1 {["a"]}
  /\ mutex_locked (snd (send Json.parse unit out_of_memory REQ_s1 (loaded {["a"]}))) = false.
Proof.
  assert (H : fst (send Json.parse unit out_of_memory REQ_s1 (loaded {["a"]}))
              = Throw "allocation failed") by (vm_compute; reflexivity).
  split; [exact H|].
  exact (proj2 (send_raises_only_allocation_errors Json.parse unit out_of_memory
                  REQ_s1 (loaded {["a"]}) "allocation failed" H)).
Defined.


Lemma describe_without_export_relocks_witness :
  fst (describe Json.parse unit (exports (returning []) None (Some (replying INFO_stub)))
         (loaded ∅)) = Undefined.
Proof.
  apply (describe_without_export_relocks Json.parse unit
           (exports (returning []) None (Some (replying INFO_stub))) (loaded ∅));
    reflexivity.
Defined.

Lemma new_Cassette_required_exports_witness :
  exists X c, new_Cassette unit instantiate_full "a.wasm" = Ok (X, c).
Proof.
  apply (proj2 (proj2 (proj2 (proj2 (proj2
           (new_Cassette_required_exports unit instantiate_full "a.wasm"
              instance_full {| memory := blank; guest := tt |} eq_refl)))))
           (returning [I32 8]) (replying EVENT_a)); reflexivity.
Defined.

Lemma percentile_returns_sample_value_witness : two ∈ [three; one; two].
Proof.
  apply (percentile_returns_sample_value [three; one; two] half two).
  - discriminate.
  - vm_compute. reflexivity.
Defined.

Lemma percentile_monotone_witness :
  exists vp vq,
    percentile [three; one; two] half = Ok vp
    /\ percentile [three; one; two] p95 = Ok vq
    /\ ltb vq vp = false.
Proof.
  apply (percentile_monotone [three; one; two] half p95 1 2).
  - discriminate.
  - repeat constructor.
  - vm_compute. discriminate.
  - reflexivity.
  - reflexivity.
  - vm_compute. reflexivity.
  - vm_compute. reflexivity.
  - lia.
Defined.

Lemma percentile_negative_index_witness : percentile [one] minus_one = Undefined.
Proof.
  apply (percentile_negative_index [one] minus_one (-1)).
  - discriminate.
  - repeat constructor.
  - vm_compute. discriminate.
  - vm_compute. reflexivity.
  - lia.
Defined.

Lemma filter_summary_within_bounds_witness :
  filter_summary [three; one; two] None = Ok (Some summary_123)
  /\ exists min_ms max_ms p50_ms p95_ms p99_ms,
       at_key summary_123 "count" = JInt (Z.of_nat (length [three; one; two]))
       /\ at_key summary_123 "min_ms" = JFloat min_ms
       /\ at_key summary_123 "max_ms" = JFloat max_ms
       /\ at_key summary_123 "p50_ms" = JFloat p50_ms
       /\ at_key summary_123 "p95_ms" = JFloat p95_ms
       /\ at_key summary_123 "p99_ms" = JFloat p99_ms
       /\ Forall (fun p => ltb p min_ms = false /\ ltb max_ms p = false)
            [p50_ms; p95_ms; p99_ms].
Proof.
  assert (E : filter_summary [three; one; two] None = Ok (Some summary_123))
    by (vm_compute; reflexivity).
  split; [exact E|].
  apply (filter_summary_within_bounds [three; one; two] None summary_123);
    [repeat constructor|exact E].
Defined.

Lemma generate_random_hex_digits_witness :
  exists text,
    generate_random_hex Z lcg 64 1
    = Ok (text, Nat.iter (Z.to_nat 64) (fun s => snd (lcg s)) 1)
    /\ Z.of_nat (String.length text) = 64
    /\ (forall c, In c (list_ascii_of_string text) ->
                  In c (list_ascii_of_string hex_chars)).
Proof.
  apply (generate_random_hex_digits Z lcg 64 1).
  - intros s. unfold lcg. cbn [fst]. apply Z.mod_pos_bound. lia.
  - lia.
Defined.

Lemma parse_args_spec_witness :
  parse_args ["a.wasm"; "b.wasm"]%string 100 [] = Ok (100, ["a.wasm"; "b.wasm"]%string)
  /\ parse_args ["a.wasm"; "b.wasm"; "-i"]%string 100 []
     = Ok (100, ["a.wasm"; "b.wasm"]%string)
  /\ parse_args ["a.wasm"; "b.wasm"; "-i"; "5"; "c.wasm"]%string 100 []
     = Ok (5, ["a.wasm"; "b.wasm"; "c.wasm"]%string).
Proof.
  assert (Hpre : Forall (fun a => is_iterations_flag a = false) ["a.wasm"; "b.wasm"]%string)
    by (repeat constructor).
  destruct (parse_args_spec ["a.wasm"; "b.wasm"]%string 100 [] Hpre) as (H1 & H2 & H3).
  split; [exact H1|]. split; [exact (H2 "-i"%string eq_refl)|].
  exact (H3 "-i"%string "5"%string ["c.wasm"]%string eq_refl).
Defined.

Lemma well_behaved_files : well_behaved string all_but_missing all_but_broken report_written 5.
Proof.
  split; [|split].
  - intros path. eexists. reflexivity.
  - intros path. unfold all_but_broken. destruct (String.eqb path "broken.wasm"); discriminate.
  - intros results. exists tt. reflexivity.
Defined.

Lemma main_reports_in_order_witness :
  main string all_but_missing all_but_broken report_written
    ["benchmark"; "a.wasm"; "missing.wasm"; "broken.wasm"; "-i"; "5"; "b.wasm"]%string
  = Ok {| status := 0; reported := ["a.wasm"; "b.wasm"]%string |}.
Proof.
  apply (main_reports_in_order string all_but_missing all_but_broken report_written
           ["benchmark"; "a.wasm"; "missing.wasm"; "broken.wasm"; "-i"; "5"; "b.wasm"]%string
           5 ["a.wasm"; "missing.wasm"; "broken.wasm"; "b.wasm"]%string).
  - simpl. lia.
  - reflexivity.
  - discriminate.
  - exact well_behaved_files.
Defined.

End Scenarios.
